(** * bigcommerce-oauth-next: the installation controller and the template copier

    A shallow embedding of
    - [src/use-cases/install/controllers/InstallController.ts] (the OAuth
      callback controller) and its error class [MissingOAuthParamsError],
    - [src/cli/utils/fileCopy.ts] ([copyDirectory]),
    - [src/cli/commands/init.ts] and [src/cli.ts] (the command line),
    together with the parts of the platform they call: WHATWG
    [URLSearchParams] and [URL], fetch [Headers], [NextResponse.redirect] and
    the synchronous [node:fs] calls.

    Strings are Rocq strings, read as the sequence of bytes of the UTF-8
    encoding of the JavaScript string. *)

From Stdlib Require Import Strings.String Strings.Ascii NArith Lia DecimalString.
From stdpp Require Import base option list strings gmap.

(** ** JavaScript values *)

Module Js.

(** [!s] is false for a non-empty string: a string is truthy iff it is
    non-empty. *)
Definition truthy (s : string) : bool :=
  match s with
  | EmptyString => false
  | String _ _ => true
  end.

(** [o ?? d]: the right operand only when the left one is [null] or
    [undefined]; an empty string is kept. *)
Definition nullish {A} (o : option A) (d : A) : A :=
  match o with
  | Some a => a
  | None => d
  end.

(** What [instanceof] can tell about a thrown value: the two classes the
    controller tests for, and everything else (other [Error]s and values
    that are not errors at all). *)
Inductive ErrorClass :=
| MissingOAuthParamsError
| BigCommerceTokenExchangeError
| OtherValue.

(** A thrown value: its class and whatever else it carries (message, stack,
    response body, ...), kept as an opaque string. *)
Record Thrown := mkThrown { class_of : ErrorClass; detail : string }.

Definition instanceof (e : Thrown) (c : ErrorClass) : bool :=
  match class_of e, c with
  | MissingOAuthParamsError, MissingOAuthParamsError => true
  | BigCommerceTokenExchangeError, BigCommerceTokenExchangeError => true
  | _, _ => false
  end.

End Js.

(** ** application/x-www-form-urlencoded (URLSearchParams) *)

Module UrlEncoded.

Definition code (c : ascii) : N := N_of_ascii c.

Fixpoint forallb_string (p : ascii -> bool) (s : string) : bool :=
  match s with
  | EmptyString => true
  | String c rest => p c && forallb_string p rest
  end.

Definition existsb_string (p : ascii -> bool) (s : string) : bool :=
  negb (forallb_string (fun c => negb (p c)) s).

(** [c] is one of the bytes of [set]. *)
Definition mem (c : ascii) (set : string) : bool :=
  existsb_string (Ascii.eqb c) set.

Definition is_digit (c : ascii) : bool := (48 <=? code c)%N && (code c <=? 57)%N.
Definition is_upper (c : ascii) : bool := (65 <=? code c)%N && (code c <=? 90)%N.
Definition is_lower (c : ascii) : bool := (97 <=? code c)%N && (code c <=? 122)%N.
Definition is_alpha (c : ascii) : bool := is_upper c || is_lower c.
Definition is_alnum (c : ascii) : bool := is_alpha c || is_digit c.

(** Bytes the serializer leaves alone: ASCII alphanumerics and [*-._]. *)
Definition unreserved (c : ascii) : bool := is_alnum c || mem c "*-._".


Definition hex_digit (n : N) : ascii :=
  if (n <? 10)%N then ascii_of_N (48 + n) else ascii_of_N (55 + n).

(** [%XX] with upper-case hexadecimal digits. *)
Definition percent_encode_byte (c : ascii) : string :=
  String "%" (String (hex_digit (code c / 16))
             (String (hex_digit (code c mod 16)) EmptyString)).

(** The byte serializer: space becomes [+], unreserved bytes stay, every
    other byte is percent-encoded. *)
Definition serialize_byte (c : ascii) : string :=
  if Ascii.eqb c " " then "+"
  else if unreserved c then String c EmptyString
  else percent_encode_byte c.

Fixpoint serialize_bytes (s : string) : string :=
  match s with
  | EmptyString => EmptyString
  | String c rest => serialize_byte c +:+ serialize_bytes rest
  end.

(** [URLSearchParams.prototype.toString]: [name=value] joined by [&]. *)
Fixpoint serialize (l : list (string * string)) : string :=
  match l with
  | [] => EmptyString
  | [(n, v)] => serialize_bytes n +:+ "=" +:+ serialize_bytes v
  | (n, v) :: rest =>
      serialize_bytes n +:+ "=" +:+ serialize_bytes v +:+ "&" +:+ serialize rest
  end.

Definition hex_value (c : ascii) : option N :=
  if is_digit c then Some (code c - 48)%N
  else if (65 <=? code c)%N && (code c <=? 70)%N then Some (code c - 55)%N
  else if (97 <=? code c)%N && (code c <=? 102)%N then Some (code c - 87)%N
  else None.

(** Percent-decode: [%] followed by two hexadecimal digits is one byte, any
    other byte (a stray [%] too) is copied. *)
Fixpoint percent_decode (s : string) : string :=
  match s with
  | EmptyString => EmptyString
  | String c rest =>
      if Ascii.eqb c "%" then
        match rest with
        | String h (String l rest') =>
            match hex_value h, hex_value l with
            | Some a, Some b =>
                String (ascii_of_N (16 * a + b)) (percent_decode rest')
            | _, _ => String c (percent_decode rest)
            end
        | _ => String c (percent_decode rest)
        end
      else String c (percent_decode rest)
  end.

Fixpoint plus_to_space (s : string) : string :=
  match s with
  | EmptyString => EmptyString
  | String c rest =>
      String (if Ascii.eqb c "+" then " "%char else c) (plus_to_space rest)
  end.

(** Strict split: [n] separators give [n + 1] pieces. *)
Fixpoint split_on (sep : ascii) (s : string) : list string :=
  match s with
  | EmptyString => [EmptyString]
  | String c rest =>
      if Ascii.eqb c sep then EmptyString :: split_on sep rest
      else match split_on sep rest with
           | piece :: pieces => String c piece :: pieces
           | [] => [String c EmptyString]
           end
  end.

(** The part before the first [sep] and, when there is one, the part
    after it. *)
Fixpoint split_first (sep : ascii) (s : string) : string * option string :=
  match s with
  | EmptyString => (EmptyString, None)
  | String c rest =>
      if Ascii.eqb c sep then (EmptyString, Some rest)
      else let '(before, after) := split_first sep rest in
           (String c before, after)
  end.

Definition decode_component (s : string) : string :=
  percent_decode (plus_to_space s).

Definition parse_pair (piece : string) : option (string * string) :=
  if Js.truthy piece then
    let '(n, v) := split_first "=" piece in
    Some (decode_component n, decode_component (Js.nullish v EmptyString))
  else None.

(** The parser behind [new URL(..).searchParams]: split on [&], drop empty
    pieces, split each at its first [=], turn [+] into a space and
    percent-decode. *)
Definition parse (query : string) : list (string * string) :=
  omap parse_pair (split_on "&" query).

(** [URLSearchParams.prototype.get]: the first value under that name, or
    [null]. *)
Fixpoint get (name : string) (l : list (string * string)) : option string :=
  match l with
  | [] => None
  | (n, v) :: rest => if String.eqb n name then Some v else get name rest
  end.

End UrlEncoded.

(** ** WHATWG URL: [new URL(input, base)] on a special base without credentials *)

Module Url.

Import UrlEncoded.

(** Result of a platform call in the model. [Failure] is the platform's
    failure ([new URL] throws a [TypeError]). [Unmodelled] marks inputs on
    which the standard's algorithm takes steps that are not written out
    here: credentials, IPv6 literals, punycode labels and non-ASCII hosts
    (they need the IDNA tables), hosts that end in a number without being
    a sequence of at most four numbers (the standard changed on them),
    a [^] in a path (it is percent-encoded since 2023 only), the [file]
    scheme and the schemes that are not special, and an input with a
    scheme of its own given together with a base. The model says nothing
    about them. *)
Inductive outcome (A : Type) :=
| Parsed (a : A)
| Failure
| Unmodelled.
Arguments Parsed {A} a.
Arguments Failure {A}.
Arguments Unmodelled {A}.

Definition bind {A B} (o : outcome A) (f : A -> outcome B) : outcome B :=
  match o with
  | Parsed a => f a
  | Failure => Failure
  | Unmodelled => Unmodelled
  end.

(** A URL record without credentials: scheme, host, port ([None] is the
    null port), the list of path segments, query and fragment. *)
Record URL := mkURL {
  scheme : string;
  host : string;
  port : option N;
  path : list string;
  query : option string;
  fragment : option string
}.

Definition lower_char (c : ascii) : ascii :=
  if is_upper c then ascii_of_N (code c + 32) else c.

Fixpoint lower (s : string) : string :=
  match s with
  | EmptyString => EmptyString
  | String c rest => String (lower_char c) (lower rest)
  end.

Definition first_char (s : string) : option ascii :=
  match s with
  | EmptyString => None
  | String c _ => Some c
  end.

(** *** What the parser does to its input first *)

(** A C0 control or space. *)
Definition c0_or_space (c : ascii) : bool := (code c <=? 32)%N.

(** An ASCII tab or newline. *)
Definition tab_or_newline (c : ascii) : bool :=
  (code c =? 9)%N || (code c =? 10)%N || (code c =? 13)%N.

Fixpoint trim_start (s : string) : string :=
  match s with
  | EmptyString => EmptyString
  | String c rest => if c0_or_space c then trim_start rest else s
  end.

Fixpoint trim_end (s : string) : string :=
  match s with
  | EmptyString => EmptyString
  | String c rest =>
      match trim_end rest with
      | EmptyString => if c0_or_space c then EmptyString else String c EmptyString
      | kept => String c kept
      end
  end.

Fixpoint remove (drop : ascii -> bool) (s : string) : string :=
  match s with
  | EmptyString => EmptyString
  | String c rest => if drop c then remove drop rest else String c (remove drop rest)
  end.

(** Leading and trailing C0 controls and spaces are removed, then every
    tab and newline. *)
Definition preprocess (input : string) : string :=
  remove tab_or_newline (trim_end (trim_start input)).

(** *** Scheme *)

Definition scheme_char (c : ascii) : bool := is_alnum c || mem c "+-.".

(** Scheme start state and scheme state: an ASCII letter, then letters,
    digits, [+], [-] and [.]. *)
Definition is_scheme (s : string) : bool :=
  match s with
  | EmptyString => false
  | String c rest => is_alpha c && forallb_string scheme_char rest
  end.

(** The special schemes and their default ports; [file] is special too but
    has states of its own and is left out. *)
Definition default_port (scheme : string) : option N :=
  if String.eqb scheme "http" then Some 80%N
  else if String.eqb scheme "https" then Some 443%N
  else if String.eqb scheme "ws" then Some 80%N
  else if String.eqb scheme "wss" then Some 443%N
  else if String.eqb scheme "ftp" then Some 21%N
  else None.

(** In a special URL a backslash is a slash. *)
Definition is_slash (c : ascii) : bool := Ascii.eqb c "/" || Ascii.eqb c "\".

(** Special authority slashes state and special authority ignore slashes
    state: every slash before the authority is skipped. *)
Fixpoint drop_slashes (s : string) : string :=
  match s with
  | EmptyString => EmptyString
  | String c rest => if is_slash c then drop_slashes rest else s
  end.

(** The part before the first byte that satisfies [stop], and the rest
    from that byte on. *)
Fixpoint break (stop : ascii -> bool) (s : string) : string * string :=
  match s with
  | EmptyString => (EmptyString, EmptyString)
  | String c rest =>
      if stop c then (EmptyString, s)
      else let '(before, after) := break stop rest in (String c before, after)
  end.

(** The input begins with a scheme and its colon. *)
Definition has_scheme (input : string) : bool :=
  match break (fun c => negb (scheme_char c)) input with
  | (prefix, String ":" _) => is_scheme prefix
  | _ => false
  end.

(** *** Percent-encode sets *)

Definition c0_control_set (c : ascii) : bool := (code c <? 32)%N || (126 <? code c)%N.

Definition fragment_set (c : ascii) : bool :=
  c0_control_set c || mem c " <>`" || (code c =? 34)%N.

Definition query_set (c : ascii) : bool :=
  c0_control_set c || mem c " #<>" || (code c =? 34)%N.

Definition special_query_set (c : ascii) : bool := query_set c || (code c =? 39)%N.

(** The path percent-encode set, but for [^] (see [path_state_on]). *)
Definition path_set (c : ascii) : bool := query_set c || mem c "?`{}".

Fixpoint encode_with (set : ascii -> bool) (s : string) : string :=
  match s with
  | EmptyString => EmptyString
  | String c rest =>
      (if set c then percent_encode_byte c else String c EmptyString)
      +:+ encode_with set rest
  end.

(** *** Host *)

(** Forbidden domain code points, among the ASCII bytes. *)
Definition forbidden_domain (c : ascii) : bool :=
  (code c <=? 32)%N || (code c =? 127)%N || mem c "#/:<>?@[\]^|%".

Definition starts_with_xn (label : string) : bool :=
  match label with
  | String a (String b (String c (String d _))) =>
      String.eqb (lower (String a (String b (String c (String d EmptyString))))) "xn--"
  | _ => false
  end.

Fixpoint radix_value (radix acc : N) (s : string) : option N :=
  match s with
  | EmptyString => Some acc
  | String c rest =>
      match hex_value c with
      | Some d => if (d <? radix)%N then radix_value radix (radix * acc + d) rest else None
      | None => None
      end
  end.

(** The IPv4 number parser, on a part of a lower-cased domain: [0x] opens
    a hexadecimal number, another leading [0] an octal one. *)
Definition parse_ipv4_number (part : string) : option N :=
  match part with
  | EmptyString => None
  | String "0" (String "x" rest) => radix_value 16 0 rest
  | String "0" (String c rest) => radix_value 8 0 (String c rest)
  | _ => radix_value 10 0 part
  end.

(** The parts between the dots, without the empty part a trailing dot
    leaves. *)
Definition ipv4_parts (domain : string) : list string :=
  match rev (split_on "." domain) with
  | EmptyString :: part :: parts => rev (part :: parts)
  | parts => rev parts
  end.

(** The ends-in-a-number checker. *)
Definition ends_in_a_number (domain : string) : bool :=
  match rev (ipv4_parts domain) with
  | last :: _ =>
      (Js.truthy last && forallb_string is_digit last)
      || bool_decide (is_Some (parse_ipv4_number last))
  | [] => false
  end.

Fixpoint ipv4_numbers (parts : list string) : option (list N) :=
  match parts with
  | [] => Some []
  | part :: rest =>
      match parse_ipv4_number part, ipv4_numbers rest with
      | Some n, Some ns => Some (n :: ns)
      | _, _ => None
      end
  end.

(** The value of the numbers of an address: all but the last are one byte
    each, from the left; the last fills what is left. *)
Fixpoint ipv4_value (numbers : list N) (place : N) : option N :=
  match numbers with
  | [] => None
  | [last] => if (last <? 256 ^ (place + 1))%N then Some last else None
  | n :: rest =>
      if (255 <? n)%N then None
      else
        match ipv4_value rest (place - 1) with
        | Some v => Some (n * 256 ^ place + v)%N
        | None => None
        end
  end.

Definition decimal (n : N) : string := NilZero.string_of_uint (N.to_uint n).

(** The IPv4 serializer. *)
Definition ipv4_string (address : N) : string :=
  decimal (address / 16777216) +:+ "."
  +:+ decimal ((address / 65536) mod 256) +:+ "."
  +:+ decimal ((address / 256) mod 256) +:+ "."
  +:+ decimal (address mod 256).

(** The IPv4 parser on a domain that ends in a number, where every part
    is a number and there are at most four of them. *)
Definition parse_ipv4 (domain : string) : outcome string :=
  match ipv4_numbers (ipv4_parts domain) with
  | Some numbers =>
      if (4 <? length numbers)%nat then Unmodelled
      else
        match ipv4_value numbers 3 with
        | Some address => Parsed (ipv4_string address)
        | None => Failure
        end
  | None => Unmodelled
  end.

(** The host parser for a special scheme, on a non-empty buffer that does
    not open an IPv6 literal: the buffer is percent-decoded; a domain of
    ASCII bytes with no [xn--] label is lower-cased by domain-to-ASCII; it
    fails on a forbidden code point; a domain that ends in a number is an
    IPv4 address. *)
Definition parse_host (buffer : string) : outcome string :=
  let domain := lower (percent_decode buffer) in
  if existsb_string (fun c => (127 <? code c)%N) domain
     || existsb starts_with_xn (split_on "." domain)
  then Unmodelled
  else if existsb_string forbidden_domain domain then Failure
  else if ends_in_a_number domain then parse_ipv4 domain
  else Parsed domain.

Fixpoint digits_value (acc : N) (s : string) : N :=
  match s with
  | EmptyString => acc
  | String c rest => digits_value (10 * acc + (code c - 48))%N rest
  end.

(** Port state: decimal digits up to 65535; the scheme's default port
    becomes the null port, and so does an empty port. *)
Definition parse_port (scheme buffer : string) : outcome (option N) :=
  if negb (forallb_string is_digit buffer) then Failure
  else if negb (Js.truthy buffer) then Parsed None
  else
    let p := digits_value 0 buffer in
    if (65535 <? p)%N then Failure
    else if bool_decide (default_port scheme = Some p) then Parsed None
    else Parsed (Some p).

(** *** Path, query and fragment *)

Fixpoint slashes (s : string) : string :=
  match s with
  | EmptyString => EmptyString
  | String c rest => String (if Ascii.eqb c "\" then "/"%char else c) (slashes rest)
  end.

Definition single_dot (segment : string) : bool :=
  String.eqb (lower segment) "." || String.eqb (lower segment) "%2e".

Definition double_dot (segment : string) : bool :=
  String.eqb (lower segment) ".." || String.eqb (lower segment) ".%2e"
  || String.eqb (lower segment) "%2e." || String.eqb (lower segment) "%2e%2e".

(** Shorten a path that is not a [file] path. *)
Definition shorten (path : list string) : list string := removelast path.

(** Path state, segment by segment: a double-dot segment takes the last
    segment away, a single-dot segment is skipped, any other segment is
    percent-encoded and added; after a dot segment that ends the path an
    empty segment is added. *)
Fixpoint path_state (segments : list string) (path : list string) : list string :=
  match segments with
  | [] => path
  | [segment] =>
      if double_dot segment then shorten path ++ [EmptyString]
      else if single_dot segment then path ++ [EmptyString]
      else path ++ [encode_with path_set segment]
  | segment :: rest =>
      path_state rest
        (if double_dot segment then shorten path
         else if single_dot segment then path
         else path ++ [encode_with path_set segment])
  end.

(** Path state on the text of a path, from the segments [start]. *)
Definition path_state_on (text : string) (start : list string) : outcome (list string) :=
  if mem "^"%char text then Unmodelled
  else Parsed (path_state (split_on "/" (slashes text)) start).

(** The text of the path, of the query after the first [?] and of the
    fragment after the first [#]. *)
Definition split_tail (text : string) : string * option string * option string :=
  let '(before, frag) := split_first "#" text in
  let '(p, q) := split_first "?" before in
  (p, q, frag).

(** Path start state, path state, query state and fragment state of a
    special URL, on what follows the authority. *)
Definition parse_tail (scheme host : string) (port : option N)
    (text : string) (start : list string) : outcome URL :=
  let '(p, q, frag) := split_tail text in
  bind (path_state_on p start) (fun segments =>
  Parsed (mkURL scheme host port segments
            (encode_with special_query_set <$> q)
            (encode_with fragment_set <$> frag))).

Definition authority_end (c : ascii) : bool := mem c "/\?#".

Definition drop_slash (s : string) : string :=
  match s with
  | String c rest => if is_slash c then rest else s
  | EmptyString => EmptyString
  end.

(** Authority, host and port states for [host] or [host:port], then the
    path. A special scheme needs a non-empty host. *)
Definition parse_authority (scheme input : string) : outcome URL :=
  let '(authority, rest) := break authority_end input in
  if mem "@"%char authority || bool_decide (first_char authority = Some "["%char)
  then Unmodelled
  else
    let '(hostname, after) := split_first ":" authority in
    if negb (Js.truthy hostname) then Failure
    else
      bind (parse_host hostname) (fun h =>
      bind (match after with
            | None => Parsed None
            | Some digits => parse_port scheme digits
            end) (fun p =>
      parse_tail scheme h p (drop_slash rest) [])).

(** The basic URL parser without a base. Input with no valid scheme before
    its first [:] fails. *)
Definition parse_absolute (input : string) : outcome URL :=
  match split_first ":" (preprocess input) with
  | (_, None) => Failure
  | (s, Some rest) =>
      if negb (is_scheme s) then Failure
      else
        let scheme := lower s in
        match default_port scheme with
        | Some _ => parse_authority scheme (drop_slashes rest)
        | None => Unmodelled
        end
  end.

(** The basic URL parser with a base that is special and has a host, on an
    input with no scheme of its own: relative state and relative slash
    state, then the authority of the input or the path, query and
    fragment. *)
Definition parse_relative (input : string) (base : URL) : outcome URL :=
  let input := preprocess input in
  if has_scheme input then Unmodelled
  else
    match input with
    | String c rest =>
        if is_slash c then
          if match rest with
             | String d _ => is_slash d
             | EmptyString => false
             end
          then parse_authority (scheme base) (drop_slashes rest)
          else parse_tail (scheme base) (host base) (port base) rest []
        else
          let '(p, q, frag) := split_tail input in
          if Js.truthy p
          then parse_tail (scheme base) (host base) (port base) input (shorten (path base))
          else
            Parsed (mkURL (scheme base) (host base) (port base) (path base)
                      match q with
                      | Some q => Some (encode_with special_query_set q)
                      | None => query base
                      end
                      (encode_with fragment_set <$> frag))
    | EmptyString =>
        Parsed (mkURL (scheme base) (host base) (port base) (path base) (query base) None)
    end.

(** [new URL(input, base)]: the base is parsed first. *)
Definition URL_new (input base : string) : outcome URL :=
  bind (parse_absolute base) (parse_relative input).

(** *** Serializing *)

Definition path_string (path : list string) : string :=
  foldr (fun segment rest => String "/" segment +:+ rest) EmptyString path.

(** The serialization of the origin of a special URL. *)
Definition origin (u : URL) : string :=
  scheme u +:+ "://" +:+ host u
  +:+ match port u with
      | Some p => ":" +:+ decimal p
      | None => EmptyString
      end.

(** The URL serializer ([href], [toString]). *)
Definition href (u : URL) : string :=
  origin u +:+ path_string (path u)
  +:+ match query u with
      | Some q => String "?" q
      | None => EmptyString
      end
  +:+ match fragment u with
      | Some f => String "#" f
      | None => EmptyString
      end.


(** *** Target paths *)








(** No byte of [s] is a question mark or a number sign. *)
Abbreviation no_delim s :=
  (forallb_string (fun c => negb (mem c "?#")) s = true).

(** No byte of [s] is a C0 control or a space. *)
Abbreviation solid s :=
  (forallb_string (fun c => negb (c0_or_space c)) s = true).

End Url.

(** ** Next.js requests and responses *)

Module Next.

(** What the controller reads of a [NextRequest]: the search parameters of
    [new URL(req.url)] (a request's URL is an absolute URL the platform has
    already parsed) and the headers, keyed by lower-case name. *)
Record NextRequest := mkRequest {
  searchParams : list (string * string);
  headers : gmap string string
}.

Record NextResponse := mkResponse {
  status : N;
  response_headers : gmap string string
}.

(** [NextResponse.redirect(url)]: status 307 and the serialized URL in the
    [Location] header. *)
Definition redirect (url : Url.URL) : NextResponse :=
  mkResponse 307 {[ "location" := Url.href url ]}.

End Next.

(** ** DTOs of the install use case *)

Inductive InstallStatus := success | error.

Definition status_string (s : InstallStatus) : string :=
  match s with
  | success => "success"
  | error => "error"
  end.

Module InstallResult.
Record t := mk {
  status : InstallStatus;
  context : option string;
  errorCode : option string
}.
End InstallResult.

Module InstallHandlerConfig.
Record t (UseCase : Type) := mk {
  installApp : UseCase;
  redirectUri : string;
  successPath : option string;
  errorPath : option string
}.
Arguments mk {UseCase}.
Arguments installApp {UseCase}.
Arguments redirectUri {UseCase}.
Arguments successPath {UseCase}.
Arguments errorPath {UseCase}.
End InstallHandlerConfig.

(** The object [getOAuthParams] returns. *)
Module OAuthParams.
Record t := mk { code : string; context : string; scope : string }.
End OAuthParams.

(** The first argument of [installApp.execute]:
    [{ ...params, redirectUri }]. *)
Module InstallParams.
Record t := mk {
  code : string;
  context : string;
  scope : string;
  redirectUri : string
}.
End InstallParams.

(** The second argument of [installApp.execute]: the empty object. *)
Inductive ExecuteOptions := EmptyOptions.

(** How the promise [execute] returns settles; the value it is fulfilled
    with is not used by the controller. *)
Inductive Settled :=
| Fulfilled
| Rejected (reason : Js.Thrown).

(** ** The controller *)

Module InstallController.

(** How a method call ends: it returns, it throws, or it reaches a
    platform step outside the modelled part (see [Url.outcome]). *)
Inductive completion (A : Type) :=
| Returned (a : A)
| Threw (e : Js.Thrown)
| Unmodelled.
Arguments Returned {A} a.
Arguments Threw {A} e.
Arguments Unmodelled {A}.

Section WithExternal.

(** State of everything outside the controller that the use case may
    read and change (stores, the OAuth gateway, ...). *)
Context {External : Type}.

(** [InstallAppUseCase.execute]. *)
Definition InstallAppUseCase : Type :=
  InstallParams.t -> ExecuteOptions -> External -> Settled * External.

(** The fields of the class. *)
Record fields := mkFields {
  installApp : InstallAppUseCase;
  redirectUri : string;
  successPath : string;
  errorPath : string
}.

(** The constructor. *)
Definition constructor (config : InstallHandlerConfig.t InstallAppUseCase) : fields :=
  {| installApp := InstallHandlerConfig.installApp config;
     redirectUri := InstallHandlerConfig.redirectUri config;
     successPath := Js.nullish (InstallHandlerConfig.successPath config) "/auth/result";
     errorPath := Js.nullish (InstallHandlerConfig.errorPath config) "/auth/result" |}.

(** The store a method runs in: the controller object, the outside
    world, and two logs kept for the specification: the calls made to
    [execute], and what was written with [console.log]. *)
Record World := mkWorld {
  this : fields;
  ext : External;
  calls : list (InstallParams.t * ExecuteOptions);
  console : list Js.Thrown
}.

Definition M (A : Type) : Type := World -> completion A * World.

Definition ret {A} (a : A) : M A := fun w => (Returned a, w).

Definition throw {A} (e : Js.Thrown) : M A := fun w => (Threw e, w).

Definition bind {A B} (m : M A) (f : A -> M B) : M B :=
  fun w =>
    match m w with
    | (Returned a, w') => f a w'
    | (Threw e, w') => (Threw e, w')
    | (Unmodelled, w') => (Unmodelled, w')
    end.

(** [try { body } catch (err) { handler }]. *)
Definition try_catch {A} (body : M A) (handler : Js.Thrown -> M A) : M A :=
  fun w =>
    match body w with
    | (Threw e, w') => handler e w'
    | r => r
    end.

Definition get_this : M fields := fun w => (Returned (this w), w).

(** [await useCase.execute(params, options)]: the call is logged, the
    outside world moves on, a rejection is thrown. *)
Definition await_execute (useCase : InstallAppUseCase)
    (params : InstallParams.t) (options : ExecuteOptions) : M unit :=
  fun w =>
    let '(settled, ext') := useCase params options (ext w) in
    let w' := {| this := this w; ext := ext';
                 calls := calls w ++ [(params, options)];
                 console := console w |} in
    match settled with
    | Fulfilled => (Returned tt, w')
    | Rejected e => (Threw e, w')
    end.

Definition console_log (e : Js.Thrown) : M unit :=
  fun w =>
    (Returned tt,
     {| this := this w; ext := ext w; calls := calls w;
        console := console w ++ [e] |}).

(** [new URL(input, base)] as a step of a method. *)
Definition new_URL (input base : string) : M Url.URL :=
  fun w =>
    match Url.URL_new input base with
    | Url.Parsed u => (Returned u, w)
    | Url.Failure =>
        (Threw (Js.mkThrown Js.OtherValue "TypeError: Invalid URL"), w)
    | Url.Unmodelled => (Unmodelled, w)
    end.

Notation "'let*' x ':=' m 'in' k" := (bind m (fun x => k))
  (at level 10, x name, m at level 100, k at level 200).

Definition new_MissingOAuthParamsError : Js.Thrown :=
  Js.mkThrown Js.MissingOAuthParamsError
    "Missing OAuth parameters: `code` and `context` are required.".

Definition getOAuthParams (req : Next.NextRequest) : M OAuthParams.t :=
  let url := Next.searchParams req in
  let code := Js.nullish (UrlEncoded.get "code" url) "" in
  let context := Js.nullish (UrlEncoded.get "context" url) "" in
  let scope := Js.nullish (UrlEncoded.get "scope" url) "" in
  if negb (Js.truthy code) || negb (Js.truthy context)
  then throw new_MissingOAuthParamsError
  else ret (OAuthParams.mk code context scope).

Definition mapErrorToCode (err : Js.Thrown) : string :=
  if Js.instanceof err Js.MissingOAuthParamsError then "missing_params"
  else if Js.instanceof err Js.BigCommerceTokenExchangeError
  then "token_exchange_failed"
  else "unknown".

Definition performInstall (req : Next.NextRequest) : M InstallResult.t :=
  try_catch
    (let* params := getOAuthParams req in
     let* self := get_this in
     let* _ := await_execute (installApp self)
            (InstallParams.mk (OAuthParams.code params)
               (OAuthParams.context params) (OAuthParams.scope params)
               (redirectUri self))
            EmptyOptions in
     ret (InstallResult.mk success (Some (OAuthParams.context params)) None))
    (fun err =>
       let* _ := console_log err in
       ret (InstallResult.mk error None (Some (mapErrorToCode err)))).

Definition getBaseUrl (req : Next.NextRequest) : string :=
  let host :=
    Js.nullish (Next.headers req !! "x-forwarded-host")
      (Js.nullish (Next.headers req !! "host") "localhost:3000") in
  let protocol := Js.nullish (Next.headers req !! "x-forwarded-proto") "http" in
  protocol +:+ "://" +:+ host.

(** [c ? { key: value } : {}] spread into an object literal, for an
    optional string [c]: the key is there iff [c] is a non-empty
    string. *)
Definition spread_if_truthy (key : string) (value : option string)
    : list (string * string) :=
  match value with
  | Some v => if Js.truthy v then [(key, v)] else []
  | None => []
  end.

(** The entries of the [URLSearchParams] the redirect carries. *)
Definition redirect_search (outcome : InstallResult.t) : list (string * string) :=
  [("status", status_string (InstallResult.status outcome))]
  ++ spread_if_truthy "context" (InstallResult.context outcome)
  ++ spread_if_truthy "code" (InstallResult.errorCode outcome).

Definition buildRedirectResponse (request : Next.NextRequest)
    (outcome : InstallResult.t) : M Next.NextResponse :=
  let* self := get_this in
  let baseUrl := getBaseUrl request in
  let targetPath :=
    match InstallResult.status outcome with
    | success => successPath self
    | error => errorPath self
    end in
  let search := redirect_search outcome in
  let* url := new_URL (targetPath +:+ "?" +:+ UrlEncoded.serialize search) baseUrl in
  ret (Next.redirect url).

Definition handle (request : Next.NextRequest) : M Next.NextResponse :=
  let* outcome := performInstall request in
  buildRedirectResponse request outcome.

(** The world right after [new InstallController(config)]. *)
Definition fresh (config : InstallHandlerConfig.t InstallAppUseCase)
    (outside : External) : World :=
  {| this := constructor config; ext := outside; calls := []; console := [] |}.


End WithExternal.

(** The base URL written out from the headers, as [getBaseUrl] makes
    it. *)
Abbreviation forwarded_base req :=
  (Js.nullish (Next.headers req !! "x-forwarded-proto") "http" +:+ "://"
   +:+ Js.nullish (Next.headers req !! "x-forwarded-host")
         (Js.nullish (Next.headers req !! "host") "localhost:3000")).

End InstallController.

(** ** node:fs and [copyDirectory] *)

Module Fs.

(** A resolved absolute path, innermost segment first: the root is [[]]
    and [path.join(p, entry)] is [entry :: p]. *)
Abbreviation path := (list string).

(** What a path holds: a regular file with its contents, or a directory
    with the names [readdirSync] lists, in listing order. *)
Inductive inode :=
| File (data : string)
| Directory (entries : list string).

(** The file system: a finite map from paths to inodes. *)
Abbreviation fs := (gmap (list string) inode).

Inductive errno := ENOENT | ENOTDIR | EISDIR | EEXIST.

(** How a call ends: it returns, it throws a system error, or the model ran
    out of fuel (only [copyDirectory] takes fuel). *)
Inductive completion (A : Type) :=
| Ok (a : A)
| Throws (e : errno) (at_path : path)
| OutOfFuel.
Arguments Ok {A} a.
Arguments Throws {A} e at_path.
Arguments OutOfFuel {A}.

Definition M (A : Type) : Type := fs -> completion A * fs.

Definition ret {A} (a : A) : M A := fun s => (Ok a, s).

Definition throw {A} (e : errno) (p : path) : M A := fun s => (Throws e p, s).

Definition bind {A B} (m : M A) (f : A -> M B) : M B :=
  fun s =>
    match m s with
    | (Ok a, s') => f a s'
    | (Throws e p, s') => (Throws e p, s')
    | (OutOfFuel, s') => (OutOfFuel, s')
    end.

Notation "'let*' x ':=' m 'in' k" := (bind m (fun x => k))
  (at level 10, x name, m at level 100, k at level 200).

(** [for (const x of l) body(x)]. *)
Fixpoint for_of {A} (l : list A) (body : A -> M unit) : M unit :=
  match l with
  | [] => ret tt
  | x :: rest => let* _ := body x in for_of rest body
  end.

Definition join (p : path) (entry : string) : path := entry :: p.

Definition existsSync (p : path) : M bool :=
  fun s => (Ok (bool_decide (is_Some (s !! p))), s).

(** A directory lists [name] once. *)
Definition add_entry (name : string) (entries : list string) : list string :=
  if decide (name ∈ entries) then entries else entries ++ [name].

(** [mkdirSync(p, { recursive: true })]: nothing to do on a directory;
    otherwise the parent is made first and the new, empty directory is
    entered in it. *)
Fixpoint mkdirSync_recursive (p : path) (s : fs) : completion unit * fs :=
  match s !! p with
  | Some (Directory _) => (Ok tt, s)
  | Some (File _) => (Throws EEXIST p, s)
  | None =>
      match p with
      | [] => (Ok tt, <[ [] := Directory [] ]> s)
      | name :: parent =>
          match mkdirSync_recursive parent s with
          | (Ok _, s') =>
              match s' !! parent with
              | Some (Directory entries) =>
                  (Ok tt, <[ p := Directory [] ]>
                            (<[ parent := Directory (add_entry name entries) ]> s'))
              | _ => (Throws ENOTDIR p, s')
              end
          | (Throws _ _, s') => (Throws ENOTDIR p, s')
          | (OutOfFuel, s') => (OutOfFuel, s')
          end
      end
  end.

Definition readdirSync (p : path) : M (list string) :=
  fun s =>
    match s !! p with
    | Some (Directory entries) => (Ok entries, s)
    | Some (File _) => (Throws ENOTDIR p, s)
    | None => (Throws ENOENT p, s)
    end.

(** [statSync(p)], kept as the inode it describes. *)
Definition statSync (p : path) : M inode :=
  fun s =>
    match s !! p with
    | Some i => (Ok i, s)
    | None => (Throws ENOENT p, s)
    end.

Definition isDirectory (stat : inode) : bool :=
  match stat with
  | Directory _ => true
  | File _ => false
  end.

(** [copyFileSync(src, dest)]: [dest] is created or overwritten with the
    contents of [src]; its parent directory has to exist. *)
Definition copyFileSync (src dest : path) : M unit :=
  fun s =>
    match s !! src with
    | None => (Throws ENOENT src, s)
    | Some (Directory _) => (Throws EISDIR src, s)
    | Some (File data) =>
        match dest with
        | [] => (Throws EISDIR dest, s)
        | name :: parent =>
            match s !! parent, s !! dest with
            | None, _ => (Throws ENOENT dest, s)
            | Some (File _), _ => (Throws ENOTDIR dest, s)
            | Some (Directory _), Some (Directory _) => (Throws EISDIR dest, s)
            | Some (Directory entries), _ =>
                (Ok tt, <[ dest := File data ]>
                          (<[ parent := Directory (add_entry name entries) ]> s))
            end
        end
    end.

(** [copyDirectory(src, dest)]. The recursion follows the directory tree
    found on disk, so the model takes fuel: one unit per level. *)
Fixpoint copyDirectory (fuel : nat) (src dest : path) : M unit :=
  match fuel with
  | O => fun s => (OutOfFuel, s)
  | S fuel' =>
      let* present := existsSync dest in
      let* _ := (if negb present then mkdirSync_recursive dest else ret tt) in
      let* entries := readdirSync src in
      for_of entries (fun entry =>
        let srcPath := join src entry in
        let destPath := join dest entry in
        let* stat := statSync srcPath in
        if isDirectory stat then copyDirectory fuel' srcPath destPath
        else copyFileSync srcPath destPath)
  end.

(** [p] is listed in its parent, which is a directory. *)
Definition listed (s : fs) (p : path) : bool :=
  match p with
  | [] => true
  | name :: parent =>
      match s !! parent with
      | Some (Directory entries) => bool_decide (name ∈ entries)
      | _ => false
      end
  end.

(** Whatever exists is listed in the directory above it. *)
Definition well_formed (s : fs) : Prop :=
  map_Forall (fun p _ => listed s p = true) s.

#[global] Instance well_formed_dec (s : fs) : Decision (well_formed s).
Proof. unfold well_formed. apply _. Defined.

(** Neither [p] nor a path above it is a regular file: what
    [mkdirSync(p, { recursive: true })] needs. *)
Fixpoint no_file_above (s : fs) (p : path) : bool :=
  match s !! p with
  | Some (File _) => false
  | _ => match p with
         | [] => true
         | _ :: parent => no_file_above s parent
         end
  end.

(** [q] is [dest], a path under it, or one of the directories above
    it. *)
Definition around (dest q : path) : Prop :=
  dest `suffix_of` q \/ q `suffix_of` dest.

(** From [s] to [s'] nothing has changed away from [dest]. *)
Definition away (dest : path) (s s' : fs) : Prop :=
  forall q, ~ around dest q -> s' !! q = s !! q.

(** From [s] to [s'] nothing is lost: a file is still a file, a directory
    is still a directory and lists at least what it listed. *)
Definition keeps (s s' : fs) : Prop :=
  (forall q data, s !! q = Some (File data) -> exists data', s' !! q = Some (File data'))
  /\ (forall q entries,
        s !! q = Some (Directory entries) ->
        exists entries', s' !! q = Some (Directory entries') /\ entries ⊆ entries').

(** A directory tree as a value: a file with its contents, or a directory
    with its named children in listing order. *)
#[local] Unset Elimination Schemes.
Inductive tree :=
| Leaf (data : string)
| Node (children : list (string * tree)).

(** The file system holds the tree [t] at [p]: the files have the tree's
    contents, the directories list exactly the tree's names, each once. *)
Inductive holds (s : fs) : path -> tree -> Prop :=
| holds_leaf p data :
    s !! p = Some (File data) -> holds s p (Leaf data)
| holds_node p children :
    s !! p = Some (Directory (children.*1)) ->
    NoDup (children.*1) ->
    Forall (fun child => holds s (child.1 :: p) child.2) children ->
    holds s p (Node children).
#[local] Set Elimination Schemes.

(** Induction on a tree, with the property known of all children. *)
Fixpoint tree_nested_ind (P : tree -> Prop)
    (Hleaf : forall data, P (Leaf data))
    (Hnode : forall children, Forall (fun child => P child.2) children -> P (Node children))
    (t : tree) : P t :=
  match t with
  | Leaf data => Hleaf data
  | Node children =>
      Hnode children
        ((fix all (cs : list (string * tree)) : Forall (fun child => P child.2) cs :=
            match cs with
            | [] => List.Forall_nil _
            | c :: cs' =>
                List.Forall_cons _ c cs'
                  (match c return P c.2 with
                   | (_, t') => tree_nested_ind P Hleaf Hnode t'
                   end)
                  (all cs')
            end) children)
  end.

(** Levels of directories in a tree: the fuel its copy needs. *)
Fixpoint levels (t : tree) : nat :=
  match t with
  | Leaf _ => 0
  | Node children => S (foldr (fun child n => levels child.2 `max` n) 0 children)
  end.

End Fs.

(** ** The command line: [src/cli.ts] and [src/cli/commands/init.ts] *)

Module Cli.

(** What the two functions use of the process: [process.argv],
    [process.cwd()], the [__dirname] of the [init] module, the disk and the
    two streams of the console. Directories are held as the file system
    holds them, innermost segment first. *)
Record Process := {
  argv : list string;
  cwd : Fs.path;
  dirname : Fs.path;
  disk : Fs.fs;
  stdout : list string;
  stderr : list string;
}.

(** How a call ends: it returns, [process.exit] ends the process, or the
    promise of the [async] function is rejected with what [copyDirectory]
    threw. *)
Inductive completion :=
| Returned
| Exited (code : N)
| Rejected (e : Fs.errno) (p : Fs.path)
| OutOfFuel.

Definition console_error (line : string) (w : Process) : Process :=
  {| argv := argv w; cwd := cwd w; dirname := dirname w; disk := disk w;
     stdout := stdout w; stderr := stderr w ++ [line] |}.

Definition console_log (line : string) (w : Process) : Process :=
  {| argv := argv w; cwd := cwd w; dirname := dirname w; disk := disk w;
     stdout := stdout w ++ [line]; stderr := stderr w |}.

Definition set_disk (d : Fs.fs) (w : Process) : Process :=
  {| argv := argv w; cwd := cwd w; dirname := dirname w; disk := d;
     stdout := stdout w; stderr := stderr w |}.

(** [`${v}`]. *)
Definition interpolate (v : option string) : string :=
  match v with
  | Some s => s
  | None => "undefined"
  end.

Definition is_absolute (p : string) : bool :=
  match p with
  | String "/" _ => true
  | _ => false
  end.

Definition resolve_segment (acc : Fs.path) (segment : string) : Fs.path :=
  if decide (segment = "" \/ segment = ".") then acc
  else if decide (segment = "..") then tail acc
  else segment :: acc.

(** POSIX [path.resolve(from, to)] for an absolute, normalized [from]: an
    absolute [to] starts again from the root; empty and [.] segments are
    dropped, [..] goes up and stays at the root. *)
Definition resolve (from : Fs.path) (to : string) : Fs.path :=
  fold_left resolve_segment (UrlEncoded.split_on "/" to)
    (if is_absolute to then [] else from).

(** The string of a resolved path. *)
Definition path_string (p : Fs.path) : string :=
  match p with
  | [] => "/"
  | _ => foldr (fun segment above => above +:+ "/" +:+ segment) "" p
  end.

Definition newline : string := String (ascii_of_N 10) EmptyString.

Definition usage : string := "Usage: bigcommerce-oauth-next init <path>".

Definition initCommand (fuel : nat) (args : list string) (w : Process)
    : completion * Process :=
  let targetPath := args !! 0%nat in
  match targetPath with
  | Some target =>
      if negb (Js.truthy target) then
        (Exited 1, console_error usage (console_error "Missing target path." w))
      else
        let projectRoot := cwd w in
        let dest := resolve projectRoot target in
        let templateDir := resolve (dirname w) "../../../templates/ts" in
        let w1 :=
          console_log ("Scaffolding BigCommerce OAuth Next files to:" +:+ newline
                       +:+ "  " +:+ path_string dest) w in
        match Fs.copyDirectory fuel templateDir dest (disk w1) with
        | (Fs.Ok _, d) => (Returned, console_log "Done!" (set_disk d w1))
        | (Fs.Throws e p, d) => (Rejected e p, set_disk d w1)
        | (Fs.OutOfFuel, d) => (OutOfFuel, set_disk d w1)
        end
  | None =>
      (Exited 1, console_error usage (console_error "Missing target path." w))
  end.

(** [const [, , command, ...rest] = process.argv] and [main]. *)
Definition main (fuel : nat) (w : Process) : completion * Process :=
  let command := argv w !! 2%nat in
  let rest := drop 3 (argv w) in
  if decide (command = Some "init") then initCommand fuel rest w
  else
    (Exited 1,
     console_error usage (console_error ("Unknown command: " +:+ interpolate command) w)).

End Cli.

(** ** Fixtures, after [tests/cli.spec.ts] *)

Module Fixtures.

Import InstallController.

(** [createInstallAppMock]: an [execute] that resolves. *)
Definition installAppMock : @InstallAppUseCase unit :=
  fun _ _ outside => (Fulfilled, outside).

(** [vi.fn().mockRejectedValue(e)]. *)
Definition rejectingMock (e : Js.Thrown) : @InstallAppUseCase unit :=
  fun _ _ outside => (Rejected e, outside).

Definition redirectUri : string :=
  "https://my-app.example.com/api/bc/install/callback".

Definition defaultConfig : InstallHandlerConfig.t InstallAppUseCase :=
  InstallHandlerConfig.mk installAppMock redirectUri None None.

Definition rejectingConfig (e : Js.Thrown) : InstallHandlerConfig.t InstallAppUseCase :=
  InstallHandlerConfig.mk (rejectingMock e) redirectUri None None.

Definition forwardedHeaders : gmap string string :=
  {[ "x-forwarded-host" := "public.example.com"; "x-forwarded-proto" := "https" ]}.

Definition successRequest : Next.NextRequest :=
  Next.mkRequest
    (UrlEncoded.parse "code=abc123&context=stores/xyz&scope=store_v2_products")
    forwardedHeaders.

Definition missingRequest : Next.NextRequest :=
  Next.mkRequest (UrlEncoded.parse "scope=store_v2_products")
    {[ "host" := "shop.example.com" ]}.





(** The tree of [tests/cli/utils/fileCopy.spec.ts], under [/tmp]:
    [src/file.txt] and [src/nested/inner.txt]. *)
Definition sourceTree : gmap (list string) Fs.inode :=
  list_to_map
    [([], Fs.Directory ["tmp"]);
     (["tmp"], Fs.Directory ["src"]);
     (["src"; "tmp"], Fs.Directory ["file.txt"; "nested"]);
     (["file.txt"; "src"; "tmp"], Fs.File "root file");
     (["nested"; "src"; "tmp"], Fs.Directory ["inner.txt"]);
     (["inner.txt"; "nested"; "src"; "tmp"], Fs.File "nested file")].

(** The same with a destination that holds stale files of the same
    names. *)
Definition staleTree : gmap (list string) Fs.inode :=
  <[ ["tmp"] := Fs.Directory ["src"; "dest"] ]>
    (<[ ["dest"; "tmp"] := Fs.Directory ["file.txt"; "nested"] ]>
       (<[ ["file.txt"; "dest"; "tmp"] := Fs.File "old content" ]>
          (<[ ["nested"; "dest"; "tmp"] := Fs.Directory ["inner.txt"] ]>
             (<[ ["inner.txt"; "nested"; "dest"; "tmp"] := Fs.File "old nested" ]>
                sourceTree)))).

(** The package as installed beside a project, with the templates of
    [templates/ts], and the process of
    [bigcommerce-oauth-next init ./src/app] run in the project. *)
Definition packageDisk : gmap (list string) Fs.inode :=
  list_to_map
    [([], Fs.Directory ["pkg"; "project"]);
     (["project"], Fs.Directory []);
     (["pkg"], Fs.Directory ["dist"; "templates"]);
     (["dist"; "pkg"], Fs.Directory ["cli"]);
     (["cli"; "dist"; "pkg"], Fs.Directory ["commands"]);
     (["commands"; "cli"; "dist"; "pkg"], Fs.Directory []);
     (["templates"; "pkg"], Fs.Directory ["ts"]);
     (["ts"; "templates"; "pkg"], Fs.Directory ["auth"]);
     (["auth"; "ts"; "templates"; "pkg"], Fs.Directory ["route.ts"; "result"]);
     (["route.ts"; "auth"; "ts"; "templates"; "pkg"], Fs.File "route");
     (["result"; "auth"; "ts"; "templates"; "pkg"], Fs.Directory ["_dto"; "page.tsx"]);
     (["_dto"; "result"; "auth"; "ts"; "templates"; "pkg"],
      Fs.Directory ["AuthResultProps.ts"]);
     (["AuthResultProps.ts"; "_dto"; "result"; "auth"; "ts"; "templates"; "pkg"],
      Fs.File "props");
     (["page.tsx"; "result"; "auth"; "ts"; "templates"; "pkg"], Fs.File "page")].

Definition templates : Fs.tree :=
  Fs.Node
    [("auth",
      Fs.Node
        [("route.ts", Fs.Leaf "route");
         ("result",
          Fs.Node
            [("_dto", Fs.Node [("AuthResultProps.ts", Fs.Leaf "props")]);
             ("page.tsx", Fs.Leaf "page")])])].

Definition initProcess : Cli.Process :=
  {| Cli.argv := ["node"; "cli.js"; "init"; "./src/app"];
     Cli.cwd := ["project"];
     Cli.dirname := ["commands"; "cli"; "dist"; "pkg"];
     Cli.disk := packageDisk;
     Cli.stdout := [];
     Cli.stderr := [] |}.

Definition unknownProcess : Cli.Process :=
  {| Cli.argv := ["node"; "cli.js"; "foo"; "bar"];
     Cli.cwd := ["project"];
     Cli.dirname := ["commands"; "cli"; "dist"; "pkg"];
     Cli.disk := packageDisk;
     Cli.stdout := [];
     Cli.stderr := [] |}.

End Fixtures.

(** * Properties *)

(** ** Strings *)

Section StringLemmas.

Import UrlEncoded.




(** Splitting at the first separator undoes a concatenation whose left
    part has no separator. *)
Lemma split_first_app sep a b :
  forallb_string (fun c => negb (Ascii.eqb c sep)) a = true ->
  split_first sep (a +:+ String sep b) = (a, Some b).
Proof.
  induction a as [|c a IH]; simpl.
  - by rewrite Ascii.eqb_refl.
  - intros [Hc Ha]%andb_prop. apply negb_true_iff in Hc.
    by rewrite Hc, (IH Ha).
Qed.



End StringLemmas.

(** ** Form-urlencoded round trip *)

Section UrlEncodedLemmas.

Import UrlEncoded.












End UrlEncodedLemmas.

(** ** The URL constructor on what the controller gives it *)

Section UrlLemmas.

Import UrlEncoded Url.

Lemma append_cons c a b : String c a +:+ b = String c (a +:+ b).
Proof. reflexivity. Qed.



(** *** Preprocessing *)

Lemma trim_start_app p c b :
  c0_or_space c = false ->
  trim_start (p +:+ String c b) = trim_start p +:+ String c b.
Proof.
  intros Hc. induction p as [|x p IH].
  - change (trim_start (String c b) = String c b). cbn [trim_start]. by rewrite Hc.
  - rewrite append_cons. cbn [trim_start]. by destruct (c0_or_space x).
Qed.

Lemma trim_end_cons c rest :
  trim_end (String c rest)
  = match trim_end rest with
    | EmptyString => if c0_or_space c then EmptyString else String c EmptyString
    | kept => String c kept
    end.
Proof. reflexivity. Qed.



(** Trimming the end leaves a solid byte and what precedes it. *)
Lemma trim_end_keeps a c b :
  c0_or_space c = false ->
  exists b', trim_end (a +:+ String c b) = a +:+ String c b'.
Proof.
  intros Hc. induction a as [|x a (b' & IH)].
  - change ("" +:+ String c b) with (String c b).
    rewrite trim_end_cons, Hc. destruct (trim_end b); by eexists.
  - exists b'. rewrite append_cons, trim_end_cons, IH.
    by destruct a.
Qed.

Lemma remove_app drop a b :
  remove drop (a +:+ b) = remove drop a +:+ remove drop b.
Proof.
  induction a as [|c a IH]; [done|]. rewrite append_cons. cbn [remove].
  destruct (drop c); [done|]. by rewrite append_cons, IH.
Qed.





(** *** Path, query and fragment *)






(** *** No delimiter before the query *)













(** *** Plain paths are kept as they are *)









End UrlLemmas.

(** ** The controller, method by method *)

Section ControllerLemmas.

Import InstallController.

Context {External : Type}.

Implicit Types (req : Next.NextRequest) (w : @World External).
Implicit Types (outcome : InstallResult.t).

Lemma truthy_nonempty s : s <> "" -> Js.truthy s = true.
Proof. by destruct s. Qed.

Lemma getOAuthParams_present req w code context :
  UrlEncoded.get "code" (Next.searchParams req) = Some code -> code <> "" ->
  UrlEncoded.get "context" (Next.searchParams req) = Some context -> context <> "" ->
  getOAuthParams req w
  = (Returned (OAuthParams.mk code context
                 (Js.nullish (UrlEncoded.get "scope" (Next.searchParams req)) "")), w).
Proof.
  intros Hc Hc' Hx Hx'. unfold getOAuthParams. rewrite Hc, Hx. cbn [Js.nullish].
  by rewrite !truthy_nonempty.
Qed.

Lemma getOAuthParams_missing req w :
  Js.truthy (Js.nullish (UrlEncoded.get "code" (Next.searchParams req)) "") = false
  \/ Js.truthy (Js.nullish (UrlEncoded.get "context" (Next.searchParams req)) "") = false ->
  getOAuthParams req w = (Threw new_MissingOAuthParamsError, w).
Proof.
  intros H. unfold getOAuthParams.
  destruct H as [-> | ->]; [done|]. by rewrite orb_true_r.
Qed.

(** Either both required parameters are there and non-empty, or one of
    them is missing or empty. *)
Lemma params_cases req :
  (exists code context,
      UrlEncoded.get "code" (Next.searchParams req) = Some code /\ code <> ""
      /\ UrlEncoded.get "context" (Next.searchParams req) = Some context
      /\ context <> "")
  \/ (Js.truthy (Js.nullish (UrlEncoded.get "code" (Next.searchParams req)) "") = false
      \/ Js.truthy (Js.nullish (UrlEncoded.get "context" (Next.searchParams req)) "") = false).
Proof.
  destruct (UrlEncoded.get "code" _) as [[|c code]|]; cbn; eauto.
  destruct (UrlEncoded.get "context" _) as [[|x context]|]; cbn; eauto.
  left. by eexists _, _.
Qed.

Lemma performInstall_missing req w :
  Js.truthy (Js.nullish (UrlEncoded.get "code" (Next.searchParams req)) "") = false
  \/ Js.truthy (Js.nullish (UrlEncoded.get "context" (Next.searchParams req)) "") = false ->
  performInstall req w
  = (Returned (InstallResult.mk error None (Some "missing_params")),
     mkWorld (this w) (ext w) (calls w) (console w ++ [new_MissingOAuthParamsError])).
Proof.
  intros H. unfold performInstall, try_catch, bind.
  by rewrite (getOAuthParams_missing _ _ H).
Qed.

(** With both parameters present, [execute] is called once, and the
    result follows how its promise settles. *)
Lemma performInstall_present req w code context :
  UrlEncoded.get "code" (Next.searchParams req) = Some code -> code <> "" ->
  UrlEncoded.get "context" (Next.searchParams req) = Some context -> context <> "" ->
  let params :=
    InstallParams.mk code context
      (Js.nullish (UrlEncoded.get "scope" (Next.searchParams req)) "")
      (redirectUri (this w)) in
  let settled := installApp (this w) params EmptyOptions (ext w) in
  performInstall req w
  = match settled.1 with
    | Fulfilled =>
        (Returned (InstallResult.mk success (Some context) None),
         mkWorld (this w) settled.2 (calls w ++ [(params, EmptyOptions)]) (console w))
    | Rejected e =>
        (Returned (InstallResult.mk error None (Some (mapErrorToCode e))),
         mkWorld (this w) settled.2 (calls w ++ [(params, EmptyOptions)])
           (console w ++ [e]))
    end.
Proof.
  intros Hc Hc' Hx Hx'. cbn zeta.
  unfold performInstall, try_catch, bind.
  rewrite (getOAuthParams_present _ _ _ _ Hc Hc' Hx Hx').
  cbn [get_this OAuthParams.code OAuthParams.context OAuthParams.scope this].
  unfold await_execute.
  destruct (installApp (this w) _ _ _) as [[|e] x']; reflexivity.
Qed.

Lemma buildRedirectResponse_eq req outcome w :
  buildRedirectResponse req outcome w
  = (match Url.URL_new
             ((match InstallResult.status outcome with
               | success => successPath (this w)
               | error => errorPath (this w)
               end) +:+ "?" +:+ UrlEncoded.serialize (redirect_search outcome))
             (getBaseUrl req) with
     | Url.Parsed u => Returned (Next.redirect u)
     | Url.Failure => Threw (Js.mkThrown Js.OtherValue "TypeError: Invalid URL")
     | Url.Unmodelled => Unmodelled
     end, w).
Proof.
  unfold buildRedirectResponse, bind, get_this, new_URL, ret.
  by destruct (Url.URL_new _ _).
Qed.

(** [performInstall] never throws: it returns a result of one of two
    shapes and leaves the controller as it was. *)
Lemma performInstall_returns req w :
  exists outcome w1,
    performInstall req w = (Returned outcome, w1)
    /\ this w1 = this w
    /\ ((exists context,
            UrlEncoded.get "context" (Next.searchParams req) = Some context
            /\ context <> ""
            /\ outcome = InstallResult.mk success (Some context) None)
        \/ (exists e, outcome = InstallResult.mk error None (Some (mapErrorToCode e)))).
Proof.
  destruct (params_cases req) as [(code & context & Hc & Hc' & Hx & Hx')|Hmiss].
  - rewrite (performInstall_present _ _ _ _ Hc Hc' Hx Hx').
    destruct (installApp _ _ _ _) as [[|e] x']; cbn [fst snd].
    + eexists _, _. split_and!; [done..|]. left. by eexists.
    + eexists _, _. split_and!; [done..|]. right. by eexists.
  - rewrite (performInstall_missing _ _ Hmiss).
    eexists _, _. split_and!; [done..|]. right.
    by exists new_MissingOAuthParamsError.
Qed.

Lemma handle_eq req w outcome w1 :
  performInstall req w = (Returned outcome, w1) ->
  handle req w = buildRedirectResponse req outcome w1.
Proof. intros H. unfold handle, bind. by rewrite H. Qed.





Lemma serialize_success context :
  UrlEncoded.serialize [("status", "success"); ("context", context)]
  = "status=success&context=" +:+ UrlEncoded.serialize_bytes context.
Proof. reflexivity. Qed.



End ControllerLemmas.

(** ** What [handle] guarantees *)

Section ControllerClaims.

Import InstallController.

Context {External : Type}.

Implicit Types (req : Next.NextRequest) (w : @World External).
Implicit Types (config : InstallHandlerConfig.t (@InstallAppUseCase External)).

(** C1. For a request whose query string has a non-empty [code] and a
    non-empty [context], [handle] calls [execute] exactly once: the log of
    calls grows by the single entry [({code, context, scope, redirectUri},
    {})], with [code] and [context] from the query string, [scope] from the
    query string or empty when absent, and [redirectUri] the configured
    one; and the outside world is the one that single call leaves. *)
Theorem C1_execute_called_once config req w code context :
  this w = constructor config ->
  UrlEncoded.get "code" (Next.searchParams req) = Some code -> code <> "" ->
  UrlEncoded.get "context" (Next.searchParams req) = Some context -> context <> "" ->
  let params :=
    InstallParams.mk code context
      (Js.nullish (UrlEncoded.get "scope" (Next.searchParams req)) "")
      (InstallHandlerConfig.redirectUri config) in
  calls (handle req w).2 = calls w ++ [(params, EmptyOptions)]
  /\ ext (handle req w).2
     = (InstallHandlerConfig.installApp config params EmptyOptions (ext w)).2.
Proof.
  intros Hthis Hc Hc' Hx Hx' params.
  pose proof (performInstall_present req w code context Hc Hc' Hx Hx') as Hp.
  cbn zeta in Hp. rewrite Hthis in Hp. cbn [constructor redirectUri installApp] in Hp.
  fold params in Hp.
  destruct (InstallHandlerConfig.installApp config params EmptyOptions (ext w))
    as [[|e] x'] eqn:Hsettled; cbn [fst snd] in Hp.
  all: rewrite (handle_eq _ _ _ _ Hp), buildRedirectResponse_eq; done.
Qed.



(** C4. The base URL is [protocol://host]: the host is
    [x-forwarded-host] when present, else [host] when present, else
    [localhost:3000]; the protocol is [x-forwarded-proto] when present,
    else [http]. So with both forwarded headers the forwarded values win,
    whatever [host] says, and with no header at all the base URL is
    [http://localhost:3000]. *)
Theorem C4_base_url_precedence :
  (forall req,
      getBaseUrl req
      = match Next.headers req !! "x-forwarded-proto" with
        | Some protocol => protocol
        | None => "http"
        end
        +:+ "://"
        +:+ match Next.headers req !! "x-forwarded-host" with
            | Some forwarded => forwarded
            | None => match Next.headers req !! "host" with
                      | Some host => host
                      | None => "localhost:3000"
                      end
            end)
  /\ (forall query others forwardedHost forwardedProto,
        getBaseUrl
          (Next.mkRequest query
             (<["x-forwarded-host" := forwardedHost]>
                (<["x-forwarded-proto" := forwardedProto]> others)))
        = forwardedProto +:+ "://" +:+ forwardedHost)
  /\ (forall query, getBaseUrl (Next.mkRequest query ∅) = "http://localhost:3000").
Proof.
  split_and!.
  - intros req. unfold getBaseUrl.
    by destruct (_ !! "x-forwarded-proto"), (_ !! "x-forwarded-host"), (_ !! "host").
  - intros query others fh fp. unfold getBaseUrl. cbn [Next.headers].
    rewrite lookup_insert_eq.
    rewrite lookup_insert_ne by done. by rewrite lookup_insert_eq.
  - done.
Qed.



(** C7. The request [?code=abc123&context=stores/xyz&scope=store_v2_products]
    with [x-forwarded-host: public.example.com] and
    [x-forwarded-proto: https], handled by a controller with the default
    paths whose [execute] resolves, is redirected to
    [https://public.example.com/auth/result?status=success&context=stores%2Fxyz]. *)
Theorem C7_forwarded_success_example config req w :
  this w = constructor config ->
  InstallHandlerConfig.successPath config = None ->
  InstallHandlerConfig.errorPath config = None ->
  Next.searchParams req
  = UrlEncoded.parse "code=abc123&context=stores/xyz&scope=store_v2_products" ->
  Next.headers req !! "x-forwarded-host" = Some "public.example.com" ->
  Next.headers req !! "x-forwarded-proto" = Some "https" ->
  (InstallHandlerConfig.installApp config
     (InstallParams.mk "abc123" "stores/xyz" "store_v2_products"
        (InstallHandlerConfig.redirectUri config))
     EmptyOptions (ext w)).1 = Fulfilled ->
  (handle req w).1
  = Returned
      (Next.mkResponse 307
         {[ "location" :=
              "https://public.example.com/auth/result?status=success&context=stores%2Fxyz" ]}).
Proof.
  intros Hthis Hs He Hq Hfh Hfp Hok.
  pose proof (performInstall_present req w "abc123" "stores/xyz") as Hp.
  rewrite Hq in Hp. specialize (Hp eq_refl ltac:(done) eq_refl ltac:(done)).
  cbn zeta in Hp. rewrite Hthis in Hp.
  cbn [constructor installApp redirectUri] in Hp.
  change (Js.nullish _ _) with "store_v2_products" in Hp.
  rewrite Hok in Hp.
  rewrite (handle_eq _ _ _ _ Hp), buildRedirectResponse_eq.
  cbn [fst this InstallResult.status constructor successPath].
  rewrite Hs. unfold getBaseUrl. rewrite Hfh, Hfp.
  reflexivity.
Qed.

(** C9. The constructor copies the configuration into the four fields,
    with [/auth/result] for a path that is not configured; [handle] leaves
    the four fields as they are; and how [handle] ends depends on the
    request, the fields and the outside world only, not on what earlier
    invocations logged. *)
Theorem C9_fields_fixed :
  (forall config,
      installApp (constructor config) = InstallHandlerConfig.installApp config
      /\ redirectUri (constructor config) = InstallHandlerConfig.redirectUri config
      /\ successPath (constructor config)
         = match InstallHandlerConfig.successPath config with
           | Some p => p
           | None => "/auth/result"
           end
      /\ errorPath (constructor config)
         = match InstallHandlerConfig.errorPath config with
           | Some p => p
           | None => "/auth/result"
           end)
  /\ (forall req w, this (handle req w).2 = this w)
  /\ (forall req (self : @fields External) outside calls1 console1 calls2 console2,
        (handle req (mkWorld self outside calls1 console1)).1
        = (handle req (mkWorld self outside calls2 console2)).1).
Proof.
  split_and!.
  - intros config. unfold constructor; cbn.
    by destruct (InstallHandlerConfig.successPath config),
                (InstallHandlerConfig.errorPath config).
  - intros req w.
    destruct (performInstall_returns req w) as (outcome & w1 & Hp & Hthis & _).
    by rewrite (handle_eq _ _ _ _ Hp), buildRedirectResponse_eq.
  - intros req self outside calls1 console1 calls2 console2.
    destruct (params_cases req) as [(code & context & Hc & Hc' & Hx & Hx')|Hmiss].
    + pose proof (performInstall_present req (mkWorld self outside calls1 console1)
                    code context Hc Hc' Hx Hx') as H1.
      pose proof (performInstall_present req (mkWorld self outside calls2 console2)
                    code context Hc Hc' Hx Hx') as H2.
      cbn zeta in H1, H2. cbn [this ext] in H1, H2.
      destruct (installApp self _ _ _) as [[|e] x']; cbn [fst snd] in H1, H2.
      all: rewrite (handle_eq _ _ _ _ H1), (handle_eq _ _ _ _ H2).
      all: by rewrite !buildRedirectResponse_eq.
    + rewrite !(handle_eq _ _ _ _ (performInstall_missing req _ Hmiss)).
      by rewrite !buildRedirectResponse_eq.
Qed.

(** C10. Host and protocol are chosen independently: without
    [x-forwarded-host], the [host] header [H] and the [x-forwarded-proto]
    header [P] give [P://H]; with [x-forwarded-host] [H] and no
    [x-forwarded-proto], the base URL is [http://H]. *)
Theorem C10_host_and_protocol_independent :
  (forall req H P,
      Next.headers req !! "x-forwarded-host" = None ->
      Next.headers req !! "host" = Some H ->
      Next.headers req !! "x-forwarded-proto" = Some P ->
      getBaseUrl req = P +:+ "://" +:+ H)
  /\ (forall req H,
        Next.headers req !! "x-forwarded-host" = Some H ->
        Next.headers req !! "x-forwarded-proto" = None ->
        getBaseUrl req = "http://" +:+ H).
Proof.
  split.
  - intros req H P Hfh Hh Hp. unfold getBaseUrl. by rewrite Hfh, Hh, Hp.
  - intros req H Hfh Hp. unfold getBaseUrl. by rewrite Hfh, Hp.
Qed.

End ControllerClaims.

(** ** The controller on the fixtures *)

Section ControllerWitnesses.

Import InstallController.

Lemma C1_witness :
  calls (handle Fixtures.successRequest (fresh Fixtures.defaultConfig ())).2
  = [(InstallParams.mk "abc123" "stores/xyz" "store_v2_products" Fixtures.redirectUri,
      EmptyOptions)].
Proof.
  refine (proj1 (C1_execute_called_once Fixtures.defaultConfig Fixtures.successRequest
                   (fresh Fixtures.defaultConfig ()) "abc123" "stores/xyz" _ _ _ _ _)).
  - reflexivity.
  - reflexivity.
  - discriminate.
  - reflexivity.
  - discriminate.
Defined.








Lemma C7_witness :
  (handle Fixtures.successRequest (fresh Fixtures.defaultConfig ())).1
  = Returned
      (Next.mkResponse 307
         {[ "location" :=
              "https://public.example.com/auth/result?status=success&context=stores%2Fxyz" ]}).
Proof.
  apply (C7_forwarded_success_example Fixtures.defaultConfig).
  - reflexivity.
  - reflexivity.
  - reflexivity.
  - reflexivity.
  - vm_compute. reflexivity.
  - vm_compute. reflexivity.
  - reflexivity.
Defined.

Lemma C10_witness :
  getBaseUrl
    (Next.mkRequest [] {[ "host" := "shop.example.com"; "x-forwarded-proto" := "https" ]})
  = "https://shop.example.com"
  /\ getBaseUrl (Next.mkRequest [] {[ "x-forwarded-host" := "public.example.com" ]})
     = "http://public.example.com".
Proof.
  split.
  - apply (proj1 C10_host_and_protocol_independent
             (Next.mkRequest []
                {[ "host" := "shop.example.com"; "x-forwarded-proto" := "https" ]})
             "shop.example.com" "https").
    + vm_compute. reflexivity.
    + vm_compute. reflexivity.
    + vm_compute. reflexivity.
  - apply (proj2 C10_host_and_protocol_independent
             (Next.mkRequest [] {[ "x-forwarded-host" := "public.example.com" ]})
             "public.example.com").
    + vm_compute. reflexivity.
    + vm_compute. reflexivity.
Defined.

(** The second example of the specification: no [code], no [context], a
    plain [host] header. *)
Example missing_params_example :
  (handle Fixtures.missingRequest (fresh Fixtures.defaultConfig ())).1
  = Returned
      (Next.mkResponse 307
         {[ "location" :=
              "http://shop.example.com/auth/result?status=error&code=missing_params" ]}).
Proof. vm_compute. reflexivity. Qed.

Example token_exchange_example :
  Next.response_headers
    <$> match (handle Fixtures.successRequest
                 (fresh (Fixtures.rejectingConfig
                           (Js.mkThrown Js.BigCommerceTokenExchangeError "401")) ())).1 with
        | Returned resp => Some resp
        | _ => None
        end
  = Some {[ "location" :=
              "https://public.example.com/auth/result?status=error&code=token_exchange_failed" ]}.
Proof. vm_compute. reflexivity. Qed.

End ControllerWitnesses.

(** ** The file system calls *)

(** Two paths differ: one is longer than the other over the same base,
    their names differ, or they lie in the two disjoint trees. *)
Ltac solve_suffix := by repeat apply suffix_cons_r.

Ltac path_neq :=
  let E := fresh "E" in
  intros E;
  first
    [ by (apply (f_equal length) in E; simpl in E; lia)
    | by simplify_eq
    | match type of E with
      | ?a = _ =>
          match goal with
          | Hdisj : forall q, _ `suffix_of` q -> _ `suffix_of` q -> False |- _ =>
              first
                [ by (apply (Hdisj a); [|rewrite E]; solve_suffix)
                | by (apply (Hdisj a); [rewrite E|]; solve_suffix) ]
          end
      end ].

Ltac fs_lookup :=
  repeat first [ rewrite lookup_insert_eq | rewrite lookup_insert_ne by path_neq ].

Section FsLemmas.

Import Fs.

Implicit Types (s t : gmap (list string) inode) (p q src dest : list string).

Lemma elem_of_add_entry name entries : name ∈ add_entry name entries.
Proof.
  unfold add_entry. destruct (decide (name ∈ entries)); [done|].
  apply elem_of_app. right. by apply list_elem_of_singleton.
Qed.

Lemma elem_of_add_entry_mono name other entries :
  name ∈ entries -> name ∈ add_entry other entries.
Proof.
  intros H. unfold add_entry. destruct (decide (other ∈ entries)); [done|].
  apply elem_of_app. by left.
Qed.

Lemma add_entry_nil name : add_entry name [] = [name].
Proof.
  unfold add_entry. destruct (decide (name ∈ [])) as [Hin|_]; [|done].
  by apply elem_of_nil in Hin.
Qed.

Lemma add_entry_other name other :
  other <> name -> add_entry name [other] = [other; name].
Proof.
  intros H. unfold add_entry.
  destruct (decide (name ∈ [other])) as [Hin|_]; [|done].
  apply list_elem_of_singleton in Hin. congruence.
Qed.

Lemma mkdir_directory p s entries :
  s !! p = Some (Directory entries) -> mkdirSync_recursive p s = (Ok (), s).
Proof. intros H. destruct p; cbn [mkdirSync_recursive]; by rewrite H. Qed.

Lemma mkdir_child name parent s entries :
  s !! (name :: parent) = None ->
  s !! parent = Some (Directory entries) ->
  mkdirSync_recursive (name :: parent) s
  = (Ok (), <[name :: parent := Directory []]>
              (<[parent := Directory (add_entry name entries)]> s)).
Proof.
  intros Hn Hp. cbn [mkdirSync_recursive].
  by rewrite Hn, (mkdir_directory _ _ _ Hp), Hp.
Qed.

Lemma no_file_above_here s p data :
  no_file_above s p = true -> s !! p <> Some (File data).
Proof. destruct p; cbn [no_file_above]; by destruct (s !! _) as [[]|]. Qed.

Lemma no_file_above_parent s name parent :
  no_file_above s (name :: parent) = true -> no_file_above s parent = true.
Proof. cbn [no_file_above]. by destruct (s !! (name :: parent)) as [[]|]. Qed.

(** [mkdirSync(p, { recursive: true })] succeeds when no regular file is
    in the way; it leaves [p] a directory, empty if it was not there, and
    touches only [p] and the paths above it. *)
Lemma mkdir_recursive_spec p s :
  no_file_above s p = true ->
  exists s',
    mkdirSync_recursive p s = (Ok (), s')
    /\ (exists entries, s' !! p = Some (Directory entries))
    /\ (s !! p = None -> s' !! p = Some (Directory []))
    /\ (forall q, ~ q `suffix_of` p -> s' !! q = s !! q).
Proof.
  induction p as [|name parent IH]; intros Hok.
  - cbn [mkdirSync_recursive].
    pose proof (no_file_above_here _ _ "" Hok) as Hnf.
    cbn [no_file_above] in Hok.
    destruct (s !! []) as [[data|entries]|] eqn:Hroot; [done| |].
    + exists s. split_and!; eauto. congruence.
    + eexists. split_and!; [done| | |].
      * rewrite lookup_insert_eq. eauto.
      * intros _. by rewrite lookup_insert_eq.
      * intros q Hq. rewrite lookup_insert_ne; [done|].
        intros <-. by apply Hq.
  - cbn [mkdirSync_recursive].
    destruct (s !! (name :: parent)) as [[data|entries]|] eqn:Hp.
    + by cbn [no_file_above] in Hok; rewrite Hp in Hok.
    + exists s. split_and!; eauto. congruence.
    + destruct (IH (no_file_above_parent _ _ _ Hok))
        as (s1 & -> & [entries Hdir] & _ & Hframe).
      rewrite Hdir. eexists. split_and!; [done| | |].
      * rewrite lookup_insert_eq. eauto.
      * intros _. by rewrite lookup_insert_eq.
      * intros q Hq.
        rewrite lookup_insert_ne by (intros <-; by apply Hq).
        rewrite lookup_insert_ne by (intros <-; apply Hq; by apply suffix_cons_r).
        apply Hframe. intros Hq'. apply Hq. by apply suffix_cons_r.
Qed.

Lemma readdir_directory p s entries :
  s !! p = Some (Directory entries) -> readdirSync p s = (Ok entries, s).
Proof. intros H. unfold readdirSync. by rewrite H. Qed.

Lemma stat_found p s i : s !! p = Some i -> statSync p s = (Ok i, s).
Proof. intros H. unfold statSync. by rewrite H. Qed.

(** [copyFileSync] writes the source's contents at a destination that is
    not a directory and whose parent is one. *)
Lemma copyFile_spec src name parent s data entries :
  s !! src = Some (File data) ->
  s !! parent = Some (Directory entries) ->
  (forall es, s !! (name :: parent) <> Some (Directory es)) ->
  copyFileSync src (name :: parent) s
  = (Ok (), <[name :: parent := File data]>
              (<[parent := Directory (add_entry name entries)]> s)).
Proof.
  intros Hsrc Hparent Hdest. unfold copyFileSync. rewrite Hsrc, Hparent.
  destruct (s !! (name :: parent)) as [[old|es]|] eqn:E; [done| |done].
  by destruct (Hdest es).
Qed.

Lemma well_formed_child s name parent :
  well_formed s -> s !! parent = None -> s !! (name :: parent) = None.
Proof.
  intros Hwf Hparent. destruct (s !! (name :: parent)) as [i|] eqn:E; [|done].
  apply Hwf in E. cbn [listed] in E. by rewrite Hparent in E.
Qed.

(** In a well-formed file system, what lies above an existing path
    exists. *)
Lemma well_formed_above s p q :
  well_formed s -> p `suffix_of` q -> is_Some (s !! q) -> is_Some (s !! p).
Proof.
  intros Hwf [k ->]. induction k as [|name k IH]; [done|].
  intros [i Hi]. apply IH.
  change ((name :: k) ++ p) with (name :: (k ++ p)) in Hi.
  destruct (s !! (k ++ p)) eqn:E; [done|].
  by rewrite (well_formed_child _ name _ Hwf E) in Hi.
Qed.

(** Copying a directory that holds one file [g] to [name] under the
    directory [pd]: [name] is made if it is not there, and [g] is written in
    it. *)
Lemma copy_leaf n srcd name pd t g c ep :
  t !! srcd = Some (Directory [g]) ->
  t !! (g :: srcd) = Some (File c) ->
  t !! pd = Some (Directory ep) ->
  (forall data, t !! (name :: pd) <> Some (File data)) ->
  (forall es, t !! (g :: name :: pd) <> Some (Directory es)) ->
  (forall q, srcd `suffix_of` q -> pd `suffix_of` q -> False) ->
  copyDirectory (S n) srcd (name :: pd) t
  = (Ok (),
     <[g :: name :: pd := File c]>
       (<[name :: pd :=
            Directory (add_entry g match t !! (name :: pd) with
                                   | Some (Directory en) => en
                                   | _ => []
                                   end)]>
          (<[pd := Directory match t !! (name :: pd) with
                             | None => add_entry name ep
                             | _ => ep
                             end]> t))).
Proof.
  intros Hsrc Hg Hpd Hnf Hnd Hdisj.
  cbn [copyDirectory]. unfold bind at 1, existsSync at 1.
  destruct (t !! (name :: pd)) as [[data|en]|] eqn:Hname; [by destruct (Hnf data)| |].
  - rewrite bool_decide_eq_true_2 by eauto. cbn [negb]. unfold bind, ret.
    rewrite (readdir_directory _ _ _ Hsrc). cbn [for_of]. unfold bind, ret, join.
    rewrite (stat_found _ _ _ Hg). cbn [isDirectory].
    rewrite (copyFile_spec _ _ _ _ _ _ Hg Hname Hnd).
    by rewrite (insert_id t pd) by done.
  - rewrite bool_decide_eq_false_2 by (by intros [? ?]). cbn [negb]. unfold bind, ret.
    rewrite (mkdir_child _ _ _ _ Hname Hpd).
    rewrite readdir_directory with (entries := [g]) by (by fs_lookup).
    cbn [for_of]. unfold bind, ret, join.
    rewrite stat_found with (i := File c) by (by fs_lookup).
    cbn [isDirectory].
    rewrite copyFile_spec with (data := c) (entries := []).
    + by rewrite insert_insert_eq.
    + by fs_lookup.
    + by fs_lookup.
    + intros es. fs_lookup. apply Hnd.
Qed.

Lemma copyDirectory_S fuel src dest :
  copyDirectory (S fuel) src dest
  = (let* present := existsSync dest in
     let* _ := (if negb present then mkdirSync_recursive dest else ret ()) in
     let* entries := readdirSync src in
     for_of entries
       (fun entry =>
          let* stat := statSync (entry :: src) in
          if isDirectory stat
          then copyDirectory fuel (entry :: src) (entry :: dest)
          else copyFileSync (entry :: src) (entry :: dest))).
Proof. reflexivity. Qed.

(** One level of [copyDirectory] on a destination that is there: the loop
    over the source's entries. *)
Lemma copyDirectory_loop fuel src dest t entries ed :
  t !! dest = Some (Directory ed) ->
  t !! src = Some (Directory entries) ->
  copyDirectory (S fuel) src dest t
  = for_of entries
      (fun entry =>
         let* stat := statSync (entry :: src) in
         if isDirectory stat
         then copyDirectory fuel (entry :: src) (entry :: dest)
         else copyFileSync (entry :: src) (entry :: dest)) t.
Proof.
  intros Hdest Hsrc.
  rewrite copyDirectory_S. unfold bind at 1, existsSync at 1.
  rewrite bool_decide_eq_true_2 by eauto. cbn [negb].
  unfold bind at 1, ret at 1. unfold bind at 1.
  by rewrite (readdir_directory _ _ _ Hsrc).
Qed.

(** A source with a file [f] and a directory [d] holding a file [g],
    copied onto a destination directory in which nothing of another
    kind is in the way. *)
Lemma copy_tree n src dest t f d g c1 c2 l ed :
  l = [f; d] \/ l = [d; f] ->
  t !! src = Some (Directory l) ->
  t !! (f :: src) = Some (File c1) ->
  t !! (d :: src) = Some (Directory [g]) ->
  t !! (g :: d :: src) = Some (File c2) ->
  t !! dest = Some (Directory ed) ->
  (forall es, t !! (f :: dest) <> Some (Directory es)) ->
  (forall data, t !! (d :: dest) <> Some (File data)) ->
  (forall es, t !! (g :: d :: dest) <> Some (Directory es)) ->
  (forall q, src `suffix_of` q -> dest `suffix_of` q -> False) ->
  exists t',
    copyDirectory (S (S n)) src dest t = (Ok (), t')
    /\ t' !! (f :: dest) = Some (File c1)
    /\ t' !! (g :: d :: dest) = Some (File c2)
    /\ (exists es, t' !! dest = Some (Directory es) /\ f ∈ es)
    /\ (exists en, t' !! (d :: dest) = Some (Directory en) /\ g ∈ en)
    /\ (ed = [] -> t !! (d :: dest) = None ->
        t' !! dest = Some (Directory l) /\ t' !! (d :: dest) = Some (Directory [g]))
    /\ (forall q, ~ dest `suffix_of` q -> t' !! q = t !! q).
Proof.
  intros Hl Hsrc Hf Hd Hg Hdest Hfd Hdd Hgd Hdisj.
  assert (f <> d) as Hne by (intros ->; congruence).
  assert (forall q, d :: src `suffix_of` q -> dest `suffix_of` q -> False) as Hdisj'
    by (intros q Hq; apply Hdisj; by eapply suffix_cons_l).
  rewrite (copyDirectory_loop _ _ _ _ _ _ Hdest Hsrc).
  destruct Hl as [-> | ->]; cbn [for_of]; unfold bind, ret.
  - rewrite (stat_found _ _ _ Hf). cbn [isDirectory].
    rewrite (copyFile_spec _ _ _ _ _ _ Hf Hdest Hfd).
    rewrite stat_found with (i := Directory [g]) by (by fs_lookup).
    cbn [isDirectory].
    rewrite copy_leaf with (g := g) (c := c2) (ep := add_entry f ed);
      [|by fs_lookup..|intros ?; by fs_lookup|intros ?; by fs_lookup|done].
    fs_lookup. eexists; split; [reflexivity|]. split_and!.
    + by fs_lookup.
    + by fs_lookup.
    + fs_lookup. eexists; split; [done|].
      destruct (t !! (d :: dest));
        eauto using elem_of_add_entry, elem_of_add_entry_mono.
    + fs_lookup. eauto using elem_of_add_entry.
    + intros -> Hnone. fs_lookup. rewrite Hnone.
      by rewrite !add_entry_nil, add_entry_other.
    + intros q Hq.
      by rewrite !lookup_insert_ne by (intros <-; apply Hq; solve_suffix).
  - rewrite (stat_found _ _ _ Hd). cbn [isDirectory].
    rewrite (copy_leaf _ _ _ _ _ _ _ _ Hd Hg Hdest Hdd Hgd Hdisj').
    rewrite stat_found with (i := File c1) by (by fs_lookup).
    cbn [isDirectory].
    rewrite copyFile_spec with (data := c1)
      (entries := match t !! (d :: dest) with
                  | None => add_entry d ed
                  | _ => ed
                  end);
      [|by fs_lookup..|intros ?; by fs_lookup].
    eexists; split; [reflexivity|]. split_and!.
    + by fs_lookup.
    + by fs_lookup.
    + fs_lookup. eauto using elem_of_add_entry.
    + fs_lookup. eauto using elem_of_add_entry.
    + intros -> Hnone. fs_lookup. rewrite Hnone.
      by rewrite !add_entry_nil, add_entry_other.
    + intros q Hq.
      by rewrite !lookup_insert_ne by (intros <-; apply Hq; solve_suffix).
Qed.

(** A destination that is not there is made first; the copy then goes on as
    on a destination that is there. *)
Lemma copyDirectory_mkdir fuel src dest s s1 :
  s !! dest = None ->
  mkdirSync_recursive dest s = (Ok (), s1) ->
  is_Some (s1 !! dest) ->
  copyDirectory (S fuel) src dest s = copyDirectory (S fuel) src dest s1.
Proof.
  intros Hnone Hmk Hdir.
  transitivity
    ((let* entries := readdirSync src in
      for_of entries
        (fun entry =>
           let* stat := statSync (entry :: src) in
           if isDirectory stat
           then copyDirectory fuel (entry :: src) (entry :: dest)
           else copyFileSync (entry :: src) (entry :: dest))) s1).
  - rewrite copyDirectory_S. unfold bind at 1, existsSync at 1.
    rewrite bool_decide_eq_false_2 by (rewrite Hnone; by intros [? ?]).
    cbn [negb]. unfold bind at 1. by rewrite Hmk.
  - symmetry. rewrite copyDirectory_S. unfold bind at 1, existsSync at 1.
    rewrite bool_decide_eq_true_2 by done.
    cbn [negb]. by unfold bind at 1, ret at 1.
Qed.

(** Paths under two directories, neither of which is inside the other, are
    different paths. *)
Lemma disjoint_trees src dest :
  ~ src `suffix_of` dest -> ~ dest `suffix_of` src ->
  forall q, src `suffix_of` q -> dest `suffix_of` q -> False.
Proof.
  intros Hsd Hds q Hs Hd.
  destruct (suffix_weak_total src dest q Hs Hd); tauto.
Qed.

End FsLemmas.

(** ** [copyDirectory] on a two-level tree *)

Section CopyDirectoryClaim.

Import Fs.

(** C8, as the code has it. A source directory with a file [f] and a
    directory [d] holding a file [g] (listed in either order), copied with
    enough fuel for its two levels.
    - Into a destination that does not exist (in a well-formed file system,
      with no regular file above the destination, which is not inside the
      source): the copy returns, the destination is a directory listing what
      the source lists, and both files are at the corresponding paths with
      the source's contents.
    - Onto a destination directory that holds stale files of the same names:
      the copy returns and both files now have the source's contents.
    In both cases the source is left as it was. *)
Theorem C8_copyDirectory_reproduces_tree :
  (forall (s : gmap (list string) inode) src dest f d g c1 c2 l fuel,
      2 <= fuel ->
      well_formed s ->
      l = [f; d] \/ l = [d; f] ->
      s !! src = Some (Directory l) ->
      s !! (f :: src) = Some (File c1) ->
      s !! (d :: src) = Some (Directory [g]) ->
      s !! (g :: d :: src) = Some (File c2) ->
      s !! dest = None ->
      no_file_above s dest = true ->
      ~ src `suffix_of` dest ->
      exists s',
        copyDirectory fuel src dest s = (Ok (), s')
        /\ s' !! dest = Some (Directory l)
        /\ s' !! (f :: dest) = Some (File c1)
        /\ s' !! (d :: dest) = Some (Directory [g])
        /\ s' !! (g :: d :: dest) = Some (File c2)
        /\ (forall q, src `suffix_of` q -> s' !! q = s !! q))
  /\ (forall (s : gmap (list string) inode) src dest f d g c1 c2 l fuel
             listing nested stale1 stale2,
        2 <= fuel ->
        l = [f; d] \/ l = [d; f] ->
        s !! src = Some (Directory l) ->
        s !! (f :: src) = Some (File c1) ->
        s !! (d :: src) = Some (Directory [g]) ->
        s !! (g :: d :: src) = Some (File c2) ->
        s !! dest = Some (Directory listing) ->
        s !! (f :: dest) = Some (File stale1) ->
        s !! (d :: dest) = Some (Directory nested) ->
        s !! (g :: d :: dest) = Some (File stale2) ->
        ~ src `suffix_of` dest ->
        ~ dest `suffix_of` src ->
        exists s',
          copyDirectory fuel src dest s = (Ok (), s')
          /\ s' !! (f :: dest) = Some (File c1)
          /\ s' !! (g :: d :: dest) = Some (File c2)
          /\ (exists es, s' !! dest = Some (Directory es) /\ f ∈ es)
          /\ (exists en, s' !! (d :: dest) = Some (Directory en) /\ g ∈ en)
          /\ (forall q, src `suffix_of` q -> s' !! q = s !! q)).
Proof.
  split.
  - intros s src dest f d g c1 c2 l fuel Hfuel Hwf Hl Hsrc Hf Hd Hg Hnone Hok Hsd.
    destruct fuel as [|[|n]]; [lia..|].
    assert (~ dest `suffix_of` src) as Hds.
    { intros Hds. destruct (well_formed_above s dest src Hwf Hds) as [i Hi]; [eauto|].
      congruence. }
    pose proof (disjoint_trees _ _ Hsd Hds) as Hdisj.
    assert (forall q, src `suffix_of` q -> ~ q `suffix_of` dest) as Hout.
    { intros q Hq Hq'. apply Hsd. by etrans. }
    destruct (mkdir_recursive_spec dest s Hok) as (s1 & Hmk & Hdir & Hempty & Hframe).
    rewrite (copyDirectory_mkdir _ _ _ _ _ Hnone Hmk) by (destruct Hdir; eauto).
    assert (~ f :: dest `suffix_of` dest) as Hfd by apply suffix_cons_not.
    assert (~ d :: dest `suffix_of` dest) as Hdd by apply suffix_cons_not.
    assert (~ g :: d :: dest `suffix_of` dest) as Hgd.
    { intros H%suffix_length. simpl in H. lia. }
    pose proof (well_formed_child s f dest Hwf Hnone) as Hf0.
    pose proof (well_formed_child s d dest Hwf Hnone) as Hd0.
    pose proof (well_formed_child s g (d :: dest) Hwf Hd0) as Hg0.
    destruct (copy_tree n src dest s1 f d g c1 c2 l [] Hl)
      as (s' & Hcopy & Hf' & Hg' & _ & _ & Hexact & Hkeep).
    + rewrite Hframe by (apply Hout; solve_suffix). done.
    + rewrite Hframe by (apply Hout; solve_suffix). done.
    + rewrite Hframe by (apply Hout; solve_suffix). done.
    + rewrite Hframe by (apply Hout; solve_suffix). done.
    + by apply Hempty.
    + intros es. rewrite (Hframe _ Hfd), Hf0. done.
    + intros data. rewrite (Hframe _ Hdd), Hd0. done.
    + intros es. rewrite (Hframe _ Hgd), Hg0. done.
    + done.
    + destruct Hexact as [Hdest' Hd']; [done|by rewrite (Hframe _ Hdd)|].
      exists s'. split_and!; try done.
      intros q Hq. rewrite Hkeep by (intros Hq'; by apply (Hdisj q)).
      by apply Hframe, Hout.
  - intros s src dest f d g c1 c2 l fuel listing nested stale1 stale2
      Hfuel Hl Hsrc Hf Hd Hg Hdest Hf0 Hd0 Hg0 Hsd Hds.
    destruct fuel as [|[|n]]; [lia..|].
    pose proof (disjoint_trees _ _ Hsd Hds) as Hdisj.
    destruct (copy_tree n src dest s f d g c1 c2 l listing Hl Hsrc Hf Hd Hg Hdest)
      as (s' & Hcopy & Hf' & Hg' & Hdest' & Hd' & _ & Hkeep).
    + intros es. by rewrite Hf0.
    + intros data. by rewrite Hd0.
    + intros es. by rewrite Hg0.
    + done.
    + exists s'. split_and!; try done.
      intros q Hq. apply Hkeep. intros Hq'. by apply (Hdisj q).
Qed.

Lemma C8_witness :
  (exists s',
      copyDirectory 2 ["src"; "tmp"] ["dest"; "tmp"] Fixtures.sourceTree = (Ok (), s')
      /\ s' !! ["dest"; "tmp"] = Some (Directory ["file.txt"; "nested"])
      /\ s' !! ["file.txt"; "dest"; "tmp"] = Some (File "root file")
      /\ s' !! ["nested"; "dest"; "tmp"] = Some (Directory ["inner.txt"])
      /\ s' !! ["inner.txt"; "nested"; "dest"; "tmp"] = Some (File "nested file")
      /\ (forall q, ["src"; "tmp"] `suffix_of` q -> s' !! q = Fixtures.sourceTree !! q))
  /\ (exists s',
        copyDirectory 2 ["src"; "tmp"] ["dest"; "tmp"] Fixtures.staleTree = (Ok (), s')
        /\ s' !! ["file.txt"; "dest"; "tmp"] = Some (File "root file")
        /\ s' !! ["inner.txt"; "nested"; "dest"; "tmp"] = Some (File "nested file")).
Proof.
  split.
  - apply (proj1 C8_copyDirectory_reproduces_tree Fixtures.sourceTree
             ["src"; "tmp"] ["dest"; "tmp"] "file.txt" "nested" "inner.txt"
             "root file" "nested file").
    + lia.
    + compute_done.
    + left. reflexivity.
    + vm_compute. reflexivity.
    + vm_compute. reflexivity.
    + vm_compute. reflexivity.
    + vm_compute. reflexivity.
    + vm_compute. reflexivity.
    + vm_compute. reflexivity.
    + compute_done.
  - destruct (proj2 C8_copyDirectory_reproduces_tree Fixtures.staleTree
                ["src"; "tmp"] ["dest"; "tmp"] "file.txt" "nested" "inner.txt"
                "root file" "nested file" ["file.txt"; "nested"] 2
                ["file.txt"; "nested"] ["inner.txt"] "old content" "old nested")
      as (s' & Hcopy & Hf & Hg & _).
    + lia.
    + left. reflexivity.
    + vm_compute. reflexivity.
    + vm_compute. reflexivity.
    + vm_compute. reflexivity.
    + vm_compute. reflexivity.
    + vm_compute. reflexivity.
    + vm_compute. reflexivity.
    + vm_compute. reflexivity.
    + vm_compute. reflexivity.
    + compute_done.
    + compute_done.
    + exists s'. by split_and!.
Defined.

(** A destination made inside the source is listed by the [readdirSync]
    that follows, and copied into itself, level after level. *)
Example copy_into_itself :
  (copyDirectory 8 ["src"; "tmp"] ["dest"; "src"; "tmp"] Fixtures.sourceTree).1
  = OutOfFuel.
Proof. vm_compute. reflexivity. Qed.

End CopyDirectoryClaim.

(** ** More about the controller *)

Section ControllerExtras.

Import InstallController.

Context {External : Type}.

Implicit Types (req : Next.NextRequest) (w : @World External).
Implicit Types (config : InstallHandlerConfig.t (@InstallAppUseCase External)).

(** X1. [performInstall] never throws and leaves the controller alone; it
    reports [success] exactly when [code] and [context] are both present and
    non-empty and the promise of [execute], called with them, is
    fulfilled. *)
Theorem performInstall_success_iff req w :
  exists outcome w1,
    performInstall req w = (Returned outcome, w1)
    /\ this w1 = this w
    /\ (InstallResult.status outcome = success
        <-> exists code context,
              UrlEncoded.get "code" (Next.searchParams req) = Some code
              /\ code <> ""
              /\ UrlEncoded.get "context" (Next.searchParams req) = Some context
              /\ context <> ""
              /\ (installApp (this w)
                    (InstallParams.mk code context
                       (Js.nullish (UrlEncoded.get "scope" (Next.searchParams req)) "")
                       (redirectUri (this w)))
                    EmptyOptions (ext w)).1 = Fulfilled).
Proof.
  destruct (params_cases req) as [(code & context & Hc & Hc' & Hx & Hx')|Hmiss].
  - rewrite (performInstall_present _ _ _ _ Hc Hc' Hx Hx').
    destruct (installApp _ _ _ _) as [[|e] x'] eqn:Hsettled; cbn [fst snd].
    + eexists _, _. split_and!; [done..|]. split; [|done].
      intros _. exists code, context. by rewrite Hsettled.
    + eexists _, _. split_and!; [done..|]. split; [done|].
      intros (code' & context' & Hc2 & _ & Hx2 & _ & Hf).
      rewrite Hc in Hc2. rewrite Hx in Hx2. simplify_eq.
      rewrite Hsettled in Hf. done.
  - rewrite (performInstall_missing _ _ Hmiss).
    eexists _, _. split_and!; [done..|]. split; [done|].
    intros (code & context & Hc & Hc' & Hx & Hx' & _).
    rewrite Hc, Hx in Hmiss. cbn in Hmiss.
    destruct Hmiss as [H|H]; [by destruct code|by destruct context].
Qed.

(** X2. What [handle] writes with [console.log], and nothing else: with
    [code] or [context] absent or empty, the [MissingOAuthParamsError] it
    has just made; when [execute] rejects, the very value it rejected with;
    when [execute] is fulfilled, nothing. In the two failing cases the code
    of the result is the code of the logged value. *)
Theorem handle_logs_the_failure req w :
  (UrlEncoded.get "code" (Next.searchParams req) = None
   \/ UrlEncoded.get "code" (Next.searchParams req) = Some ""
   \/ UrlEncoded.get "context" (Next.searchParams req) = None
   \/ UrlEncoded.get "context" (Next.searchParams req) = Some "" ->
   console (handle req w).2 = console w ++ [new_MissingOAuthParamsError]
   /\ (performInstall req w).1
      = Returned (InstallResult.mk error None
                    (Some (mapErrorToCode new_MissingOAuthParamsError))))
  /\ (forall code context,
        UrlEncoded.get "code" (Next.searchParams req) = Some code -> code <> "" ->
        UrlEncoded.get "context" (Next.searchParams req) = Some context -> context <> "" ->
        match (installApp (this w)
                 (InstallParams.mk code context
                    (Js.nullish (UrlEncoded.get "scope" (Next.searchParams req)) "")
                    (redirectUri (this w)))
                 EmptyOptions (ext w)).1 with
        | Fulfilled => console (handle req w).2 = console w
        | Rejected e =>
            console (handle req w).2 = console w ++ [e]
            /\ (performInstall req w).1
               = Returned (InstallResult.mk error None (Some (mapErrorToCode e)))
        end).
Proof.
  split.
  - intros Hmiss.
    assert (Js.truthy (Js.nullish (UrlEncoded.get "code" (Next.searchParams req)) "") = false
            \/ Js.truthy (Js.nullish (UrlEncoded.get "context" (Next.searchParams req)) "") = false)
      as Hm by (destruct Hmiss as [-> | [-> | [-> | ->] ] ]; auto).
    pose proof (performInstall_missing _ w Hm) as Hp.
    by rewrite (handle_eq _ _ _ _ Hp), Hp, buildRedirectResponse_eq.
  - intros code context Hc Hc' Hx Hx'.
    pose proof (performInstall_present _ w _ _ Hc Hc' Hx Hx') as Hp. cbn zeta in Hp.
    destruct (installApp _ _ _ _) as [[|e] x']; cbn [fst snd] in *.
    all: by rewrite (handle_eq _ _ _ _ Hp), ?Hp, buildRedirectResponse_eq.
Qed.


Lemma forallb_trim_start (P : ascii -> bool) s :
  UrlEncoded.forallb_string P s = true ->
  UrlEncoded.forallb_string P (Url.trim_start s) = true.
Proof.
  induction s as [|c s IH]; [done|]. cbn [UrlEncoded.forallb_string Url.trim_start].
  intros [Hc Hs]%andb_prop. destruct (Url.c0_or_space c); [by apply IH|].
  cbn [UrlEncoded.forallb_string]. by rewrite Hc, Hs.
Qed.

Lemma forallb_remove (P drop : ascii -> bool) s :
  UrlEncoded.forallb_string P s = true ->
  UrlEncoded.forallb_string P (Url.remove drop s) = true.
Proof.
  induction s as [|c s IH]; [done|]. cbn [UrlEncoded.forallb_string Url.remove].
  intros [Hc Hs]%andb_prop. destruct (drop c); [by apply IH|].
  cbn [UrlEncoded.forallb_string]. by rewrite Hc, IH.
Qed.

(** A base whose protocol, as the parser reads it, is no scheme does not
    parse, whatever the host. *)
Lemma parse_absolute_no_scheme proto host :
  Url.is_scheme (Url.remove Url.tab_or_newline (Url.trim_start proto)) = false ->
  UrlEncoded.forallb_string (fun c => negb (Ascii.eqb c ":")) proto = true ->
  Url.parse_absolute (proto +:+ "://" +:+ host) = Url.Failure.
Proof.
  intros Hscheme Hcolon. unfold Url.parse_absolute, Url.preprocess.
  change ("://" +:+ host) with (String ":" ("//" +:+ host)).
  rewrite trim_start_app by done.
  destruct (trim_end_keeps (Url.trim_start proto) ":" ("//" +:+ host)) as [kept ->]; [done|].
  rewrite remove_app. cbn [Url.remove].
  change (Url.tab_or_newline ":") with false. cbn iota.
  rewrite (split_first_app ":") by (by apply forallb_remove, forallb_trim_start).
  by rewrite Hscheme.
Qed.

(** X4. An [x-forwarded-proto] that the URL parser does not read as a
    scheme: it has no colon and, once its leading controls and spaces and
    all its tabs and newlines are gone, it is not a letter followed by
    letters, digits, [+], [-] and [.] (a list such as [https,http], or the
    empty string). Whatever the host, the query and what [execute] does,
    [handle] ends with the [TypeError] of [new URL], after everything
    [performInstall] does has been done. *)
Theorem invalid_forwarded_proto_throws req w proto :
  Next.headers req !! "x-forwarded-proto" = Some proto ->
  Url.is_scheme (Url.remove Url.tab_or_newline (Url.trim_start proto)) = false ->
  UrlEncoded.forallb_string (fun c => negb (Ascii.eqb c ":")) proto = true ->
  (handle req w).1 = Threw (Js.mkThrown Js.OtherValue "TypeError: Invalid URL")
  /\ (handle req w).2 = (performInstall req w).2.
Proof.
  intros Hproto Hscheme Hcolon.
  destruct (performInstall_returns req w) as (outcome & w1 & Hp & _ & _).
  rewrite (handle_eq _ _ _ _ Hp), Hp, buildRedirectResponse_eq. cbn [fst snd].
  split; [|done].
  unfold Url.URL_new, getBaseUrl. rewrite Hproto. cbn [Js.nullish].
  by rewrite parse_absolute_no_scheme.
Qed.

(** X5. An [x-forwarded-host] header that is present but empty is used as
    it is, not replaced by [host]: with no [x-forwarded-proto] the base URL is
    [http://], which has no host, and [handle] ends with the [TypeError] of
    [new URL] whatever the [host] header, the query and [execute]. *)
Theorem empty_forwarded_host_throws req w :
  Next.headers req !! "x-forwarded-host" = Some "" ->
  Next.headers req !! "x-forwarded-proto" = None ->
  getBaseUrl req = "http://"
  /\ (handle req w).1 = Threw (Js.mkThrown Js.OtherValue "TypeError: Invalid URL").
Proof.
  intros Hhost Hproto.
  assert (getBaseUrl req = "http://") as Hbase
    by (unfold getBaseUrl; by rewrite Hhost, Hproto).
  split; [done|].
  destruct (performInstall_returns req w) as (outcome & w1 & Hp & _ & _).
  rewrite (handle_eq _ _ _ _ Hp), buildRedirectResponse_eq. cbn [fst].
  by rewrite Hbase.
Qed.


End ControllerExtras.

(** ** What every run of [copyDirectory] keeps *)

Section FsInvariants.

Import Fs.

Implicit Types (s t : gmap (list string) inode) (p q src dest : list string).

(** A property of the step from the state before to the state after, kept
    by [let*] when both parts keep it. *)
Lemma bind_preserves (R : relation (gmap (list string) inode)) `{!PreOrder R}
    {A B} (m : M A) (k : A -> M B) s :
  R s (m s).2 ->
  (forall a s', R s' (k a s').2) ->
  R s (bind m k s).2.
Proof.
  intros Hm Hk. unfold bind. destruct (m s) as [[a|e p|] s1]; cbn [snd] in *; [|done..].
  by etrans.
Qed.

Lemma for_of_preserves (R : relation (gmap (list string) inode)) `{!PreOrder R}
    {A} (l : list A) (body : A -> M unit) :
  (forall x s, x ∈ l -> R s (body x s).2) ->
  forall s, R s (for_of l body s).2.
Proof.
  induction l as [|x l IH]; intros Hbody s; cbn [for_of].
  - done.
  - apply bind_preserves; [done|apply Hbody; by left|].
    intros _ s'. apply IH. intros y s'' Hy. apply Hbody. by right.
Qed.

(** A family of such properties, one per destination, that the two writing
    calls keep and that holds for a destination when it holds for a
    directory in it, is kept by [copyDirectory], however it ends. *)
Lemma copyDirectory_preserves (R : list string -> relation (gmap (list string) inode)) :
  (forall d, PreOrder (R d)) ->
  (forall d s, R d s (mkdirSync_recursive d s).2) ->
  (forall from entry d s, R d s (copyFileSync from (entry :: d) s).2) ->
  (forall entry d s s', R (entry :: d) s s' -> R d s s') ->
  forall fuel src dest s, R dest s (copyDirectory fuel src dest s).2.
Proof.
  intros Hpre Hmkdir Hcopy Hchild fuel.
  induction fuel as [|fuel IH]; intros src dest s; [done|].
  rewrite copyDirectory_S.
  apply (bind_preserves (R dest)); [done|]. intros present s1.
  apply (bind_preserves (R dest)); [destruct (negb present); [apply Hmkdir|done]|].
  intros _ s2.
  apply (bind_preserves (R dest)); [unfold readdirSync; by destruct (s2 !! src) as [[]|]|].
  intros entries s3.
  apply (for_of_preserves (R dest)). intros entry s4 _.
  apply (bind_preserves (R dest)); [unfold statSync; by destruct (s4 !! _)|].
  intros stat s5. destruct (isDirectory stat); [|apply Hcopy].
  apply (Hchild entry), IH.
Qed.

Lemma suffix_of_cons q name p :
  q `suffix_of` name :: p -> q = name :: p \/ q `suffix_of` p.
Proof.
  intros [[|x k] E]; [by left|]. right. simplify_eq/=. by exists k.
Qed.

Lemma around_child entry dest q : around (entry :: dest) q -> around dest q.
Proof.
  intros [H|H].
  - left. by eapply suffix_cons_l.
  - destruct (suffix_of_cons _ _ _ H) as [->|H']; [left; solve_suffix|by right].
Qed.

#[local] Instance away_preorder dest : PreOrder (away dest).
Proof.
  split.
  - by intros s q Hq.
  - intros s1 s2 s3 H12 H23 q Hq. by rewrite H23, H12.
Qed.

#[local] Instance keeps_preorder : PreOrder keeps.
Proof.
  split.
  - intros s. split; eauto.
  - intros s1 s2 s3 [Hf12 Hd12] [Hf23 Hd23]. split.
    + intros q data H. destruct (Hf12 _ _ H) as [data' H']. eauto.
    + intros q entries H. destruct (Hd12 _ _ H) as (entries' & H' & Hsub).
      destruct (Hd23 _ _ H') as (entries'' & H'' & Hsub').
      exists entries''. split; [done|]. by etrans.
Qed.

Lemma add_entry_subseteq name entries : entries ⊆ add_entry name entries.
Proof. intros x Hx. by apply elem_of_add_entry_mono. Qed.

(** [mkdirSync(p, { recursive: true })] writes only at [p] and above it. *)
Lemma mkdir_frame p s q :
  ~ q `suffix_of` p -> (mkdirSync_recursive p s).2 !! q = s !! q.
Proof.
  revert s. induction p as [|name parent IH]; intros s Hq; cbn [mkdirSync_recursive].
  - destruct (s !! []) as [[]|]; cbn [snd]; [done..|].
    rewrite lookup_insert_ne; [done|]. intros <-. by apply Hq.
  - destruct (s !! (name :: parent)) as [[]|]; cbn [snd]; [done..|].
    assert (~ q `suffix_of` parent) as Hq'
      by (intros H; apply Hq; by apply suffix_cons_r).
    specialize (IH s Hq').
    destruct (mkdirSync_recursive parent s) as [[[]|e p'|] s1]; cbn [snd] in *; [|done..].
    destruct (s1 !! parent) as [[data|entries]|]; cbn [snd]; [done| |done].
    rewrite lookup_insert_ne by (intros <-; by apply Hq).
    rewrite lookup_insert_ne by (intros <-; by apply Hq'). done.
Qed.

(** Entering [name] in the directory [parent] with a new inode: nothing
    is lost when no directory is replaced and a file is replaced by a
    file. *)
Lemma insert_child_keeps name parent s entries i :
  s !! parent = Some (Directory entries) ->
  (forall es, s !! (name :: parent) <> Some (Directory es)) ->
  (forall data, s !! (name :: parent) = Some (File data) -> isDirectory i = false) ->
  keeps s (<[name :: parent := i]> (<[parent := Directory (add_entry name entries)]> s)).
Proof.
  intros Hparent Hnd Hfile. split.
  - intros q data Hq. destruct (decide (q = name :: parent)) as [->|Hne].
    + rewrite lookup_insert_eq. specialize (Hfile _ Hq). destruct i; [eauto|done].
    + rewrite lookup_insert_ne by done.
      rewrite lookup_insert_ne by (intros <-; congruence). eauto.
  - intros q es Hq. destruct (decide (q = name :: parent)) as [->|Hne].
    + by destruct (Hnd es).
    + rewrite lookup_insert_ne by done.
      destruct (decide (q = parent)) as [->|Hne'].
      * rewrite lookup_insert_eq. eexists; split; [done|].
        rewrite Hparent in Hq. injection Hq as <-. apply add_entry_subseteq.
      * rewrite lookup_insert_ne by done. eauto.
Qed.

Lemma mkdir_keeps p s : keeps s (mkdirSync_recursive p s).2.
Proof.
  revert s. induction p as [|name parent IH]; intros s; cbn [mkdirSync_recursive].
  - destruct (s !! []) as [[]|] eqn:Hroot; cbn [snd]; [done..|].
    split; intros q x Hq; (rewrite lookup_insert_ne by (intros <-; congruence)); eauto.
  - destruct (s !! (name :: parent)) as [[]|] eqn:Hp; cbn [snd]; [done..|].
    pose proof (IH s) as Hkeeps.
    pose proof (mkdir_frame parent s (name :: parent) (suffix_cons_not _ _)) as Hframe.
    destruct (mkdirSync_recursive parent s) as [[[]|e p'|] s1]; cbn [snd] in *; [|done..].
    destruct (s1 !! parent) as [[data|entries]|] eqn:Hparent; cbn [snd]; [done| |done].
    etrans; [exact Hkeeps|].
    apply (insert_child_keeps _ _ _ _ _ Hparent); intros ?; rewrite Hframe, Hp; done.
Qed.

Lemma copyFile_keeps from dest s : keeps s (copyFileSync from dest s).2.
Proof.
  unfold copyFileSync. destruct (s !! from) as [[data|]|]; [|done..].
  destruct dest as [|name parent]; [done|].
  destruct (s !! parent) as [[|entries]|] eqn:Hparent; [done| |done].
  destruct (s !! (name :: parent)) as [[old|es]|] eqn:Hdest; cbn [snd]; [|done|].
  all: apply (insert_child_keeps _ _ _ _ _ Hparent); intros ?; by rewrite ?Hdest.
Qed.

Lemma copyFile_frame from name parent s q :
  q <> name :: parent -> q <> parent ->
  (copyFileSync from (name :: parent) s).2 !! q = s !! q.
Proof.
  intros Hq Hq'. unfold copyFileSync. destruct (s !! from) as [[data|]|]; [|done..].
  destruct (s !! parent) as [[|entries]|]; [done| |done].
  destruct (s !! (name :: parent)) as [[old|es]|]; cbn [snd]; [|done|].
  all: by rewrite !lookup_insert_ne by done.
Qed.

(** X7. However [copyDirectory] ends (it returns, throws or runs out of
    fuel), it has written nowhere but at the destination, under it, and in
    the directories above it. In particular a source that is neither inside
    the destination nor above it is exactly as it was. *)
Theorem copyDirectory_writes_only_around_dest fuel src dest s :
  (forall q, ~ around dest q -> (copyDirectory fuel src dest s).2 !! q = s !! q)
  /\ (~ src `suffix_of` dest -> ~ dest `suffix_of` src ->
      forall q, src `suffix_of` q -> (copyDirectory fuel src dest s).2 !! q = s !! q).
Proof.
  assert (away dest s (copyDirectory fuel src dest s).2) as Haway.
  { apply (copyDirectory_preserves away).
    - apply _.
    - intros d s0 q Hq. apply mkdir_frame. intros H. apply Hq. by right.
    - intros from entry d s0 q Hq. apply copyFile_frame.
      + intros ->. apply Hq. left. solve_suffix.
      + intros ->. apply Hq. by left.
    - intros entry d s0 s1 H q Hq. apply H. intros H'. by apply Hq, (around_child entry). }
  split; [exact Haway|].
  intros Hsd Hds q Hq. apply Haway. intros [H|H].
  - by apply (disjoint_trees _ _ Hsd Hds q).
  - apply Hsd. by etrans.
Qed.

(** X8. However [copyDirectory] ends, nothing has been removed and nothing
    has changed kind: what was a file is a file, what was a directory is a
    directory that lists at least what it listed. *)
Theorem copyDirectory_keeps_what_exists fuel src dest s :
  (forall q data,
      s !! q = Some (File data) ->
      exists data', (copyDirectory fuel src dest s).2 !! q = Some (File data'))
  /\ (forall q entries,
        s !! q = Some (Directory entries) ->
        exists entries',
          (copyDirectory fuel src dest s).2 !! q = Some (Directory entries')
          /\ entries ⊆ entries').
Proof.
  apply (copyDirectory_preserves (fun _ => keeps)).
  - apply _.
  - intros d s0. apply mkdir_keeps.
  - intros from entry d s0. apply copyFile_keeps.
  - done.
Qed.

Lemma listed_true s name parent :
  listed s (name :: parent) = true <->
  exists entries, s !! parent = Some (Directory entries) /\ name ∈ entries.
Proof.
  cbn [listed]. destruct (s !! parent) as [[data|entries]|].
  - split; [done|]. by intros (? & ? & ?).
  - rewrite bool_decide_eq_true. split; [by eauto|].
    by intros (? & [= <-] & ?).
  - split; [done|]. by intros (? & ? & ?).
Qed.

Lemma insert_child_well_formed name parent s entries i :
  well_formed s ->
  s !! parent = Some (Directory entries) ->
  (forall es, s !! (name :: parent) <> Some (Directory es)) ->
  well_formed
    (<[name :: parent := i]> (<[parent := Directory (add_entry name entries)]> s)).
Proof.
  intros Hwf Hparent Hnd q j Hq. destruct q as [|m p']; [done|].
  apply listed_true.
  destruct (decide (m :: p' = name :: parent)) as [[= -> ->]|Hne].
  - rewrite lookup_insert_ne by path_neq. rewrite lookup_insert_eq.
    eexists; split; [done|]. apply elem_of_add_entry.
  - rewrite lookup_insert_ne in Hq by done.
    assert (exists es', s !! p' = Some (Directory es') /\ m ∈ es') as (es' & Hp' & Hm).
    { apply listed_true. destruct (decide (m :: p' = parent)) as [E|E].
      - rewrite E. by apply (Hwf parent (Directory entries)).
      - rewrite lookup_insert_ne in Hq by done. by apply (Hwf _ j). }
    destruct (decide (p' = name :: parent)) as [->|Hne1]; [by destruct (Hnd es')|].
    rewrite lookup_insert_ne by done.
    destruct (decide (p' = parent)) as [->|Hne2].
    + rewrite lookup_insert_eq. eexists; split; [done|].
      rewrite Hparent in Hp'. injection Hp' as <-. by apply elem_of_add_entry_mono.
    + rewrite lookup_insert_ne by done. eauto.
Qed.

Lemma mkdir_well_formed p s :
  well_formed s -> well_formed (mkdirSync_recursive p s).2.
Proof.
  revert s. induction p as [|name parent IH]; intros s Hwf; cbn [mkdirSync_recursive].
  - destruct (s !! []) as [[]|] eqn:Hroot; cbn [snd]; [done..|].
    intros q j Hq. destruct q as [|m p']; [done|].
    rewrite lookup_insert_ne in Hq by done.
    apply listed_true. apply Hwf, listed_true in Hq as (es & Hp' & Hm).
    rewrite lookup_insert_ne by (intros <-; congruence). eauto.
  - destruct (s !! (name :: parent)) as [[]|] eqn:Hp; cbn [snd]; [done..|].
    specialize (IH s Hwf).
    pose proof (mkdir_frame parent s (name :: parent) (suffix_cons_not _ _)) as Hframe.
    destruct (mkdirSync_recursive parent s) as [[[]|e p'|] s1]; cbn [snd] in *; [|done..].
    destruct (s1 !! parent) as [[data|entries]|] eqn:Hparent; cbn [snd]; [done| |done].
    apply (insert_child_well_formed _ _ _ _ _ IH Hparent).
    intros es. by rewrite Hframe, Hp.
Qed.

Lemma copyFile_well_formed from dest s :
  well_formed s -> well_formed (copyFileSync from dest s).2.
Proof.
  intros Hwf. unfold copyFileSync. destruct (s !! from) as [[data|]|]; [|done..].
  destruct dest as [|name parent]; [done|].
  destruct (s !! parent) as [[|entries]|] eqn:Hparent; [done| |done].
  destruct (s !! (name :: parent)) as [[old|es]|] eqn:Hdest; cbn [snd]; [|done|].
  all: apply (insert_child_well_formed _ _ _ _ _ Hwf Hparent); intros ?; by rewrite Hdest.
Qed.

Lemma well_formed_kept fuel src dest s :
  well_formed s -> well_formed (copyDirectory fuel src dest s).2.
Proof.
  apply (copyDirectory_preserves (fun _ s s' => well_formed s -> well_formed s')).
  - intros _. split; [by intros ?|]. intros s1 s2 s3 H12 H23 H. by apply H23, H12.
  - intros d s0. apply mkdir_well_formed.
  - intros from entry d s0. apply copyFile_well_formed.
  - done.
Qed.

(** X9. However [copyDirectory] ends, a well-formed file system is still
    well formed: whatever exists, also after a copy that failed half way, is
    listed in the directory above it. *)
Theorem copyDirectory_keeps_well_formed fuel src dest s :
  well_formed s -> well_formed (copyDirectory fuel src dest s).2.
Proof. apply well_formed_kept. Qed.

End FsInvariants.

(** ** [copyDirectory] at the edges *)

Section CopyDirectoryEdges.

Import Fs.

Implicit Types (s t : gmap (list string) inode) (p q src dest : list string).

(** X10. A source that does not exist, and a destination that can be made
    (no regular file is at it or above it) and is not in the source (the
    source is neither the destination nor a directory above it): the
    destination is made all the same, because [mkdirSync] runs before
    [readdirSync], and only then does the call throw [ENOENT] for the
    source; nothing but the destination and the directories above it has
    changed. *)
Theorem copyDirectory_missing_source fuel src dest s :
  s !! src = None ->
  no_file_above s dest = true ->
  ~ src `suffix_of` dest ->
  exists s',
    copyDirectory (S fuel) src dest s = (Throws ENOENT src, s')
    /\ (exists entries, s' !! dest = Some (Directory entries))
    /\ (s !! dest = None -> s' !! dest = Some (Directory []))
    /\ (forall q, ~ q `suffix_of` dest -> s' !! q = s !! q).
Proof.
  intros Hsrc Hok Hsd. rewrite copyDirectory_S.
  unfold bind at 1, existsSync at 1.
  destruct (s !! dest) as [[data|entries]|] eqn:Hdest.
  - by destruct (no_file_above_here _ _ data Hok).
  - rewrite bool_decide_eq_true_2 by eauto. cbn [negb].
    unfold bind at 1, ret at 1. unfold bind, readdirSync. rewrite Hsrc.
    exists s. split_and!; eauto. congruence.
  - rewrite bool_decide_eq_false_2 by (by intros [? ?]). cbn [negb].
    destruct (mkdir_recursive_spec dest s Hok) as (s1 & Hmk & Hdir & Hempty & Hframe).
    unfold bind at 1. rewrite Hmk. unfold bind, readdirSync.
    rewrite (Hframe _ Hsd), Hsrc.
    exists s1. split_and!; eauto.
Qed.

(** X11. An empty source directory. Onto a destination that exists, be it
    a directory or a regular file, the copy returns and changes nothing. Into
    a destination that does not exist, that can be made (no regular file is
    above it) and that is not in the source (the source is no directory
    above it), it returns having made the empty destination and touched
    nothing but it and the directories above it. *)
Theorem copyDirectory_empty_source fuel src dest s :
  s !! src = Some (Directory []) ->
  (is_Some (s !! dest) -> copyDirectory (S fuel) src dest s = (Ok (), s))
  /\ (s !! dest = None ->
      no_file_above s dest = true ->
      ~ src `suffix_of` dest ->
      exists s',
        copyDirectory (S fuel) src dest s = (Ok (), s')
        /\ s' !! dest = Some (Directory [])
        /\ (forall q, ~ q `suffix_of` dest -> s' !! q = s !! q)).
Proof.
  intros Hsrc. split.
  - intros Hdest. rewrite copyDirectory_S.
    unfold bind at 1, existsSync at 1.
    rewrite bool_decide_eq_true_2 by done. cbn [negb].
    unfold bind at 1, ret at 1. unfold bind, readdirSync. by rewrite Hsrc.
  - intros Hdest Hok Hsd.
    destruct (mkdir_recursive_spec dest s Hok) as (s1 & Hmk & Hdir & Hempty & Hframe).
    rewrite (copyDirectory_mkdir _ _ _ _ _ Hdest Hmk) by (destruct Hdir; eauto).
    exists s1. split_and!; eauto.
    destruct Hdir as [entries Hdir].
    rewrite (copyDirectory_loop _ _ _ _ [] entries Hdir); [done|].
    by rewrite (Hframe _ Hsd).
Qed.

(** X12. A destination that is a regular file, and a source directory with
    at least one entry: in a well-formed file system the copy throws
    [ENOTDIR] at the first entry and changes nothing. *)
Theorem copyDirectory_onto_regular_file fuel src dest s data entry entries :
  well_formed s ->
  s !! dest = Some (File data) ->
  s !! src = Some (Directory (entry :: entries)) ->
  is_Some (s !! (entry :: src)) ->
  copyDirectory (S (S fuel)) src dest s = (Throws ENOTDIR (entry :: dest), s).
Proof.
  intros Hwf Hdest Hsrc [i Hentry]. rewrite copyDirectory_S.
  unfold bind at 1, existsSync at 1.
  rewrite bool_decide_eq_true_2 by eauto. cbn [negb].
  unfold bind at 1, ret at 1. unfold bind at 1.
  rewrite (readdir_directory _ _ _ Hsrc). cbn [for_of]. unfold bind at 1, join.
  unfold bind at 1. rewrite (stat_found _ _ _ Hentry).
  assert (s !! (entry :: dest) = None) as Hnone.
  { destruct (s !! (entry :: dest)) as [j|] eqn:E; [|done].
    apply Hwf, listed_true in E as (es & Hd & _). congruence. }
  destruct i as [content|es]; cbn [isDirectory].
  - unfold copyFileSync. by rewrite Hentry, Hdest.
  - rewrite copyDirectory_S. unfold bind at 1, existsSync at 1.
    rewrite bool_decide_eq_false_2 by (rewrite Hnone; by intros [? ?]). cbn [negb].
    unfold bind at 1. cbn [mkdirSync_recursive]. rewrite Hnone.
    assert (mkdirSync_recursive dest s = (Throws EEXIST dest, s)) as ->
      by (destruct dest; cbn [mkdirSync_recursive]; by rewrite Hdest).
    done.
Qed.

End CopyDirectoryEdges.

(** ** [copyDirectory] on any tree *)

Section CopyDirectoryTree.

Import Fs.

Implicit Types (s t : gmap (list string) inode) (p q src dest : list string).

(** A tree held at [p] is still held there when nothing at [p] or under it
    has changed. *)
Lemma holds_frame tr : forall s s' p,
  (forall q, p `suffix_of` q -> s' !! q = s !! q) ->
  holds s p tr -> holds s' p tr.
Proof.
  induction tr as [data|children IH] using tree_nested_ind; intros s s' p Hsame Hholds.
  - inversion Hholds; subst. constructor. by rewrite Hsame.
  - inversion Hholds as [|? ? Hp Hnodup Hchildren]; subst.
    constructor; [by rewrite Hsame|done|].
    rewrite Forall_forall in *. intros child Hin.
    apply (IH child Hin s); [|by apply Hchildren].
    intros q Hq. apply Hsame. by eapply suffix_cons_l.
Qed.

Lemma levels_child (child : string * tree) (children : list (string * tree)) :
  child ∈ children ->
  levels child.2 <= foldr (fun child n => levels child.2 `max` n) 0 children.
Proof.
  induction children as [|c children IH]; [by intros ?%elem_of_nil|].
  intros [->|Hin]%elem_of_cons; cbn [foldr]; [lia|].
  specialize (IH Hin). lia.
Qed.

Lemma add_entry_fresh name entries :
  name ∉ entries -> add_entry name entries = entries ++ [name].
Proof. intros H. unfold add_entry. by destruct (decide (name ∈ entries)). Qed.

(** Two different names in one directory head two disjoint trees. *)
Lemma siblings_disjoint m n dest q :
  m <> n -> m :: dest `suffix_of` q -> n :: dest `suffix_of` q -> False.
Proof.
  intros Hne Hm Hn.
  destruct (suffix_weak_total _ _ _ Hm Hn) as [H|H];
    apply suffix_cons_inv in H as [H|H]; try by simplify_eq.
  all: by apply suffix_cons_not in H.
Qed.

Lemma not_under_self_child name dest : ~ name :: dest `suffix_of` dest.
Proof. apply suffix_cons_not. Qed.

(** The loop of [copyDirectory] over an empty directory [dest]: after the
    children [done] the directory lists their names, holds their trees,
    and the rest of the file system is as before. *)
Lemma copy_into_empty_directory tr : forall fuel src dest s children,
  tr = Node children ->
  levels tr <= fuel ->
  holds s src tr ->
  s !! dest = Some (Directory []) ->
  (forall q, dest `suffix_of` q -> q <> dest -> s !! q = None) ->
  (forall q, src `suffix_of` q -> dest `suffix_of` q -> False) ->
  exists s',
    copyDirectory fuel src dest s = (Ok (), s')
    /\ holds s' dest tr
    /\ forall q, ~ dest `suffix_of` q -> s' !! q = s !! q.
Proof.
  induction tr as [data|children IH] using tree_nested_ind;
    intros fuel src dest s children' Heq Hfuel Hholds Hdest Habsent Hdisj;
    [discriminate|clear children' Heq].
  inversion Hholds as [|? ? Hsrc Hnodup Hchildren]; subst.
  destruct fuel as [|fuel]; [cbn in Hfuel; lia|].
  cbn [levels] in Hfuel. apply le_S_n in Hfuel.
  rewrite (copyDirectory_loop _ _ _ _ _ _ Hdest Hsrc).
  set (body := fun entry : string => _).
  assert (forall todo done si,
    children = done ++ todo ->
    si !! dest = Some (Directory (done.*1)) ->
    Forall (fun child => holds si (child.1 :: dest) child.2) done ->
    (forall child q, child ∈ todo -> child.1 :: dest `suffix_of` q -> si !! q = None) ->
    (forall q, ~ dest `suffix_of` q -> si !! q = s !! q) ->
    exists s',
      for_of (todo.*1) body si = (Ok (), s')
      /\ s' !! dest = Some (Directory (children.*1))
      /\ Forall (fun child => holds s' (child.1 :: dest) child.2) children
      /\ forall q, ~ dest `suffix_of` q -> s' !! q = s !! q) as Hloop.
  { induction todo as [|[n c] todo IHl]; intros done si Hsplit Hd Hdone Habs Hfr.
    - rewrite app_nil_r in Hsplit. subst done. by exists si.
    - assert (Hin : (n, c) ∈ children) by (rewrite Hsplit; set_solver).
      assert (Hn_done : n ∉ done.*1).
      { rewrite Hsplit, fmap_app, fmap_cons in Hnodup.
        apply NoDup_app in Hnodup as (_ & Hnd & _).
        intros Hd'. apply (Hnd _ Hd'). by left. }
      assert (Hn_todo : n ∉ todo.*1).
      { rewrite Hsplit, fmap_app, fmap_cons in Hnodup.
        apply NoDup_app in Hnodup as (_ & _ & Hnd).
        by apply NoDup_cons in Hnd as [? _]. }
      assert (Hc : holds s (n :: src) c).
      { rewrite Forall_forall in Hchildren. apply (Hchildren _ Hin). }
      assert (Hlev : levels c <= fuel).
      { pose proof (levels_child _ _ Hin) as Hl. cbn [snd] in Hl. lia. }
      assert (Hsrc_si : forall q, src `suffix_of` q -> si !! q = s !! q).
      { intros q Hq. apply Hfr. intros Hq'. by apply (Hdisj q). }
      assert (Hnew : si !! (n :: dest) = None).
      { apply (Habs (n, c)); [by left|done]. }
      (* the state after this entry *)
      assert (exists s1,
        body n si = (Ok (), s1)
        /\ s1 !! dest = Some (Directory (done.*1 ++ [n]))
        /\ holds s1 (n :: dest) c
        /\ (forall q, ~ n :: dest `suffix_of` q -> q <> dest -> s1 !! q = si !! q))
        as (s1 & Hbody & Hd1 & Hc1 & Hfr1).
      { unfold body, bind.
        destruct c as [data|grand].
        - inversion Hc as [? ? Hfile|]; subst.
          rewrite (stat_found _ _ (File data))
            by (rewrite Hsrc_si; [done|by apply suffix_cons_r]).
          cbn [isDirectory].
          rewrite (copyFile_spec _ _ _ _ data (done.*1));
            [|rewrite Hsrc_si; [done|by apply suffix_cons_r]|done|by rewrite Hnew].
          eexists. split; [done|]. rewrite add_entry_fresh by done. split_and!.
          + rewrite lookup_insert_ne by (intros H; by apply (f_equal length) in H; cbn in H; lia).
            by rewrite lookup_insert_eq.
          + constructor. by rewrite lookup_insert_eq.
          + intros q Hq Hqd. rewrite !lookup_insert_ne; [done|congruence|].
            intros <-. by apply Hq.
        - inversion Hc as [|? ? Hdir Hnd Hgrand]; subst.
          rewrite (stat_found _ _ (Directory (grand.*1)))
            by (rewrite Hsrc_si; [done|by apply suffix_cons_r]).
          cbn [isDirectory].
          destruct fuel as [|fuel]; [cbn in Hlev; lia|].
          pose proof (mkdir_child n dest si (done.*1) Hnew Hd) as Hmk.
          rewrite add_entry_fresh in Hmk by done.
          set (sm := <[n :: dest := Directory []]> _) in Hmk.
          rewrite (copyDirectory_mkdir _ _ _ _ sm Hnew Hmk)
            by (unfold sm; by rewrite lookup_insert_eq).
          rewrite Forall_forall in IH.
          destruct (IH (n, Node grand) Hin (S fuel) (n :: src) (n :: dest) sm grand)
            as (s2 & Hcopy & Hheld & Hfr2); [done|done| | | | |].
          + apply (holds_frame _ s); [|done].
            intros q Hq. unfold sm.
            assert (src `suffix_of` q) by (by eapply suffix_cons_l).
            rewrite !lookup_insert_ne; [by apply Hsrc_si| |].
            * intros <-. by apply (Hdisj dest).
            * intros <-. apply (Hdisj (n :: dest)); [done|by apply suffix_cons_r].
          + unfold sm. by rewrite lookup_insert_eq.
          + intros q Hq Hne. unfold sm.
            rewrite !lookup_insert_ne; [by apply (Habs (n, Node grand)); [left|]| |congruence].
            intros <-. by apply suffix_cons_not in Hq.
          + intros q Hq1 Hq2. apply (Hdisj q); by eapply suffix_cons_l.
          + exists s2. split; [done|]. split_and!; [|done|].
            * rewrite Hfr2 by apply suffix_cons_not. unfold sm.
              rewrite lookup_insert_ne by (intros H; by apply (f_equal length) in H; cbn in H; lia).
              by rewrite lookup_insert_eq.
            * intros q Hq Hqd. rewrite Hfr2 by done. unfold sm.
              rewrite !lookup_insert_ne; [done|congruence|].
              intros <-. by apply Hq. }
      cbn [fmap list_fmap for_of fst]. unfold bind at 1. rewrite Hbody.
      destruct (IHl (done ++ [(n, c)]) s1) as (s' & Hrest & Hfinal).
      + by rewrite <- app_assoc.
      + by rewrite fmap_app.
      + apply Forall_app. split; [|by repeat constructor].
        rewrite Forall_forall in *. intros [m c'] Hm. cbn [fst snd].
        assert (m <> n).
        { intros ->. apply Hn_done. apply list_elem_of_fmap. by exists (n, c'). }
        apply (holds_frame _ si); [|by apply (Hdone (m, c'))].
        intros q Hq. apply Hfr1.
        * intros Hq'. by apply (siblings_disjoint m n dest q).
        * intros ->. by apply suffix_cons_not in Hq.
      + intros [m c'] q Hm Hq. cbn [fst] in Hq.
        assert (m <> n).
        { intros ->. apply Hn_todo. apply list_elem_of_fmap. by exists (n, c'). }
        rewrite Hfr1.
        * apply (Habs (m, c')); [by right|done].
        * intros Hq'. by apply (siblings_disjoint m n dest q).
        * intros ->. by apply suffix_cons_not in Hq.
      + intros q Hq. rewrite Hfr1; [by apply Hfr| |].
        * intros Hq'. apply Hq. by eapply suffix_cons_l.
        * intros ->. by apply Hq.
      + by exists s'. }
  destruct (Hloop children [] s) as (s' & Hrun & Hd' & Hall & Hfr); try done.
  { intros child q _ Hq. apply Habsent; [by eapply suffix_cons_l|].
    intros ->. by apply suffix_cons_not in Hq. }
  exists s'. split; [done|]. split; [by constructor|done].
Qed.

Lemma copy_any_tree fuel src dest s children :
  levels (Node children) <= fuel ->
  holds s src (Node children) ->
  no_file_above s dest = true ->
  map_Forall (fun q _ => ~ dest `suffix_of` q) s ->
  ~ src `suffix_of` dest ->
  exists s',
    copyDirectory fuel src dest s = (Ok (), s')
    /\ holds s' dest (Node children)
    /\ holds s' src (Node children)
    /\ forall q, ~ around dest q -> s' !! q = s !! q.
Proof.
  intros Hfuel Hholds Hnf Hfresh Hsd.
  assert (Habs : forall q, dest `suffix_of` q -> s !! q = None).
  { intros q Hq. destruct (s !! q) eqn:E; [|done]. by destruct (Hfresh q _ E). }
  assert (Hdisj : forall q, src `suffix_of` q -> dest `suffix_of` q -> False).
  { intros q Hs Hd. destruct (suffix_weak_total _ _ _ Hs Hd) as [H|H]; [done|].
    apply Habs in H. inversion Hholds; congruence. }
  destruct (mkdir_recursive_spec dest s Hnf) as (s1 & Hmk & _ & Hempty & Hfr1).
  specialize (Hempty (Habs dest (reflexivity dest))).
  destruct fuel as [|fuel]; [cbn in Hfuel; lia|].
  rewrite (copyDirectory_mkdir _ _ _ _ s1 (Habs dest (reflexivity dest)) Hmk)
    by (by rewrite Hempty).
  assert (Hholds1 : holds s1 src (Node children)).
  { apply (holds_frame _ s); [|done].
    intros q Hq. apply Hfr1. intros Hq'. apply Hsd. by etrans. }
  destruct (copy_into_empty_directory (Node children) (S fuel) src dest s1 children)
    as (s' & Hrun & Hheld & Hfr2); [done|done|done|done| |done|].
  { intros q Hq Hne. rewrite Hfr1; [by apply Habs|].
    intros Hq'. apply Hne. by apply (anti_symm suffix). }
  exists s'. split_and!; [done|done| |].
  - apply (holds_frame _ s1); [|done].
    intros q Hq. apply Hfr2. intros Hq'. by apply (Hdisj q).
  - intros q Hq. unfold around in Hq. rewrite Hfr2, Hfr1; tauto.
Qed.

(** X13. [copyDirectory] copies any tree, of any shape and depth, into a
    destination that does not exist yet: when the source directory holds
    the tree, nothing in the file system is at or under the destination,
    no regular file is in the way of creating it and it is not inside the
    source, the call returns (given one unit of fuel per level of
    directories); afterwards the destination holds the same tree, the
    source still holds it, and every path that is neither under the
    destination nor above it is as before. *)
Theorem copyDirectory_copies_any_tree fuel src dest s children :
  levels (Node children) <= fuel ->
  holds s src (Node children) ->
  no_file_above s dest = true ->
  map_Forall (fun q _ => ~ dest `suffix_of` q) s ->
  ~ src `suffix_of` dest ->
  exists s',
    copyDirectory fuel src dest s = (Ok (), s')
    /\ holds s' dest (Node children)
    /\ holds s' src (Node children)
    /\ forall q, ~ around dest q -> s' !! q = s !! q.
Proof. apply copy_any_tree. Qed.

Lemma copyDirectory_copies_any_tree_witness :
  exists s',
    copyDirectory 2 ["src"; "tmp"] ["dest"; "tmp"] Fixtures.sourceTree = (Ok (), s')
    /\ holds s' ["dest"; "tmp"]
         (Node [("file.txt", Leaf "root file");
                ("nested", Node [("inner.txt", Leaf "nested file")])])
    /\ holds s' ["src"; "tmp"]
         (Node [("file.txt", Leaf "root file");
                ("nested", Node [("inner.txt", Leaf "nested file")])])
    /\ forall q, ~ around ["dest"; "tmp"] q -> s' !! q = Fixtures.sourceTree !! q.
Proof.
  apply (copyDirectory_copies_any_tree 2 ["src"; "tmp"] ["dest"; "tmp"]
           Fixtures.sourceTree).
  - vm_compute. lia.
  - constructor; [reflexivity|compute_done|].
    repeat first [apply List.Forall_cons | apply List.Forall_nil]; cbn [fst snd].
    + constructor. reflexivity.
    + constructor; [reflexivity|compute_done|].
      repeat first [apply List.Forall_cons | apply List.Forall_nil]; cbn [fst snd].
      constructor. reflexivity.
  - reflexivity.
  - compute_done.
  - compute_done.
Defined.

End CopyDirectoryTree.

(** ** [copyDirectory] into the source itself *)

Section CopyDirectoryInside.

Import Fs.

Implicit Types (s t : gmap (list string) inode) (p q src dest : list string).

Lemma mkdir_ok_exists p s s' u :
  mkdirSync_recursive p s = (Ok u, s') -> is_Some (s' !! p).
Proof.
  destruct u, p as [|name parent]; cbn [mkdirSync_recursive].
  - destruct (s !! []) as [[data|entries]|] eqn:Hp;
      [done|intros [= <-]; by rewrite Hp|intros [= <-]; by rewrite lookup_insert_eq].
  - destruct (s !! (name :: parent)) as [[data|entries]|] eqn:Hp;
      [done|intros [= <-]; by rewrite Hp|].
    destruct (mkdirSync_recursive parent s) as [[[]|e p'|] s1]; [|done..].
    destruct (s1 !! parent) as [[data|entries]|]; [done| |done].
    intros [= <-]. by rewrite lookup_insert_eq.
Qed.

(** A loop does not complete when one of its rounds never does. *)
Lemma for_of_not_ok {A : Type} (Inv : gmap (list string) inode -> Prop)
    (l : list A) (body : A -> M unit) x :
  x ∈ l ->
  (forall y s, Inv s -> Inv (body y s).2) ->
  (forall s, Inv s -> (body x s).1 <> Ok ()) ->
  forall s, Inv s -> (for_of l body s).1 <> Ok ().
Proof.
  intros Hx Hinv Hstuck.
  induction l as [|a l IH]; [by apply elem_of_nil in Hx|].
  intros s Hs. cbn [for_of]. unfold bind.
  pose proof (Hinv a s Hs) as Hs1.
  destruct (body a s) as [[[]|e p|] s1] eqn:Ha; cbn [snd] in Hs1; [|done..].
  apply elem_of_cons in Hx as [->|Hx].
  - specialize (Hstuck s Hs). by rewrite Ha in Hstuck.
  - by apply IH.
Qed.

(** A copy into a directory of the source does not complete. *)
Lemma copy_into_child_not_ok fuel : forall src name s,
  well_formed s ->
  (copyDirectory fuel src (name :: src) s).1 <> Ok ().
Proof.
  induction fuel as [|fuel IH]; intros src name s Hwf; [done|].
  rewrite copyDirectory_S. unfold bind at 1. unfold existsSync at 1.
  unfold bind at 1. set (rest := bind (readdirSync src) _).
  assert (forall s2, well_formed s2 -> is_Some (s2 !! (name :: src)) ->
                     (rest s2).1 <> Ok ()) as Hrest.
  { intros s2 Hwf2 [i Hi]. unfold rest.
    pose proof (Hwf2 _ _ Hi) as (entries & Hsrc & Hname)%listed_true.
    unfold bind at 1. rewrite (readdir_directory _ _ _ Hsrc).
    apply (for_of_not_ok well_formed _ _ name Hname); [| |done].
    - intros y s0 Hs0. unfold bind, statSync.
      destruct (s0 !! (y :: src)) as [[data|es]|]; cbn [isDirectory]; [| |done].
      + by apply copyFile_well_formed.
      + by apply well_formed_kept.
    - intros s0 Hs0. unfold bind, statSync.
      destruct (s0 !! (name :: src)) as [[data|es]|] eqn:Hdest; cbn [isDirectory]; [| |done].
      + unfold copyFileSync. by rewrite !Hdest.
      + by apply IH. }
  case_bool_decide as Hpresent; cbn [negb].
  - by apply Hrest.
  - pose proof (mkdir_well_formed (name :: src) s Hwf) as Hwf'.
    destruct (mkdirSync_recursive (name :: src) s) as [[[]|e p|] s2] eqn:Hmk; [|done..].
    apply Hrest; [done|]. by apply mkdir_ok_exists in Hmk.
Qed.

(** X14. Copying a directory into a directory of its own never completes,
    whatever the fuel: the destination is made first and so is among the
    entries that [readdirSync] returns, and the round for that entry copies
    the destination into a directory of its own again. The call ends in an
    error or recurses for as long as it is let. *)
Theorem copyDirectory_into_own_subdirectory fuel : forall src name s,
  well_formed s ->
  (copyDirectory fuel src (name :: src) s).1 <> Ok ().
Proof. apply copy_into_child_not_ok. Qed.

Lemma copyDirectory_into_own_subdirectory_witness :
  (copyDirectory 8 ["src"; "tmp"] ["dest"; "src"; "tmp"] Fixtures.sourceTree).1
  <> Ok ().
Proof.
  apply (copyDirectory_into_own_subdirectory 8 ["src"; "tmp"] "dest" Fixtures.sourceTree).
  compute_done.
Defined.

(** C8 as stated fails for some destinations that do not exist. The
    tree of the test, copied into [dest] inside the source itself: the copy
    never returns, whatever the fuel. And copied to a path under its own
    regular file: the destination cannot be made, and the copy throws
    [ENOTDIR] having copied nothing. *)
Lemma C8_counterexample :
  Fixtures.sourceTree !! ["dest"; "src"; "tmp"] = None
  /\ (forall fuel,
        (copyDirectory fuel ["src"; "tmp"] ["dest"; "src"; "tmp"] Fixtures.sourceTree).1
        <> Ok ())
  /\ Fixtures.sourceTree !! ["dest"; "file.txt"; "src"; "tmp"] = None
  /\ (forall fuel,
        copyDirectory (S fuel) ["src"; "tmp"] ["dest"; "file.txt"; "src"; "tmp"]
          Fixtures.sourceTree
        = (Throws ENOTDIR ["dest"; "file.txt"; "src"; "tmp"], Fixtures.sourceTree)).
Proof.
  split_and!; [done| |done|].
  - intros fuel. apply copy_into_child_not_ok. compute_done.
  - intros fuel. rewrite copyDirectory_S. reflexivity.
Qed.

End CopyDirectoryInside.

(** ** The command line *)

Ltac prove_holds :=
  cbn [fst snd];
  first
    [ apply Fs.holds_leaf; reflexivity
    | apply Fs.holds_node;
      [ reflexivity
      | compute_done
      | repeat first [apply List.Forall_nil | apply List.Forall_cons; [prove_holds|]] ] ].

Section CliExtras.

Import Fs Cli.

Lemma truthy_false target : Js.truthy target = false <-> target = "".
Proof. by destruct target. Qed.

(** X15. The command line ends with [process.exit(1)] exactly when it is
    not given [init] followed by a non-empty path: another command or none,
    [init] alone, or [init] with an empty path. In these cases nothing is
    written to the disk or to the standard output, and the standard error
    receives two lines, the second of which is the usage line. *)
Theorem main_exits_without_target fuel w :
  let usable :=
    argv w !! 2%nat = Some "init"
    /\ exists target, argv w !! 3%nat = Some target /\ target <> "" in
  ((exists code, (main fuel w).1 = Exited code) <-> ~ usable)
  /\ (~ usable ->
      (main fuel w).1 = Exited 1
      /\ disk (main fuel w).2 = disk w
      /\ stdout (main fuel w).2 = stdout w
      /\ exists line, stderr (main fuel w).2 = stderr w ++ [line; usage]).
Proof.
  intros usable.
  assert (~ usable ->
    (main fuel w).1 = Exited 1
    /\ disk (main fuel w).2 = disk w
    /\ stdout (main fuel w).2 = stdout w
    /\ exists line, stderr (main fuel w).2 = stderr w ++ [line; usage]) as Hexit.
  { intros Hno. unfold main. destruct (decide (argv w !! 2%nat = Some "init")) as [Hinit|Hother].
    - unfold initCommand. rewrite lookup_drop, Nat.add_0_r.
      destruct (argv w !! 3%nat) as [target|] eqn:Htarget; cbn [fst snd].
      + destruct (Js.truthy target) eqn:Htruthy; cbn [negb fst snd].
        * destruct Hno. split; [done|]. exists target. split; [done|].
          intros ->. done.
        * split_and!; [done..|]. cbn. rewrite <- app_assoc. eauto.
      + split_and!; [done..|]. cbn. rewrite <- app_assoc. eauto.
    - cbn [fst snd]. split_and!; [done..|]. cbn. rewrite <- app_assoc. eauto. }
  split; [|done]. split; [|intros Hno; exists 1%N; by apply Hexit].
  intros [code Hcode] (Hinit & target & Htarget & Hne).
  unfold main in Hcode. rewrite decide_True in Hcode by done.
  unfold initCommand in Hcode. rewrite lookup_drop, Nat.add_0_r, Htarget in Hcode.
  destruct target; [done|]. cbn [Js.truthy negb] in Hcode.
  by destruct (copyDirectory _ _ _ _) as [[[]|e p|] d].
Qed.

Lemma main_exits_without_target_witness :
  (main 4 Fixtures.unknownProcess).1 = Exited 1
  /\ disk (main 4 Fixtures.unknownProcess).2 = Fixtures.packageDisk
  /\ stdout (main 4 Fixtures.unknownProcess).2 = []
  /\ exists line,
       stderr (main 4 Fixtures.unknownProcess).2 = [] ++ [line; usage].
Proof.
  apply (proj2 (main_exits_without_target 4 Fixtures.unknownProcess)).
  intros [Hinit _]. vm_compute in Hinit. discriminate.
Defined.

(** X16. [init <path>] scaffolds: when the template directory of the
    package holds a tree, nothing is yet at the resolved destination or
    under it, no regular file is in the way and the destination is not
    inside the templates, the command returns; the destination then holds
    the templates, the package still does, the standard output has received
    the line naming the destination and then [Done!], the standard error
    nothing, and arguments after the path are ignored. *)
Theorem main_init_scaffolds fuel w node script target more children :
  argv w = node :: script :: "init" :: target :: more ->
  target <> "" ->
  levels (Node children) <= fuel ->
  holds (disk w) (resolve (dirname w) "../../../templates/ts") (Node children) ->
  no_file_above (disk w) (resolve (cwd w) target) = true ->
  map_Forall (fun q _ => ~ resolve (cwd w) target `suffix_of` q) (disk w) ->
  ~ resolve (dirname w) "../../../templates/ts" `suffix_of` resolve (cwd w) target ->
  exists w',
    main fuel w = (Returned, w')
    /\ holds (disk w') (resolve (cwd w) target) (Node children)
    /\ holds (disk w') (resolve (dirname w) "../../../templates/ts") (Node children)
    /\ stdout w'
       = stdout w
         ++ ["Scaffolding BigCommerce OAuth Next files to:" +:+ newline +:+ "  "
             +:+ path_string (resolve (cwd w) target);
             "Done!"]
    /\ stderr w' = stderr w
    /\ forall q, ~ around (resolve (cwd w) target) q -> disk w' !! q = disk w !! q.
Proof.
  intros Hargv Htarget Hfuel Hholds Hnf Hfresh Hout.
  destruct (copy_any_tree fuel _ _ _ children Hfuel Hholds Hnf Hfresh Hout)
    as (d & Hcopy & Hdest & Hsrc & Hframe).
  unfold main. rewrite Hargv. cbn [lookup list_lookup drop].
  rewrite decide_True by done. unfold initCommand. cbn [lookup list_lookup].
  destruct target as [|c target]; [done|]. cbn [Js.truthy negb].
  cbn [console_log disk]. rewrite Hcopy.
  eexists. split; [done|]. cbn. rewrite <- app_assoc. by split_and!.
Qed.

Lemma main_init_scaffolds_witness :
  exists w',
    main 4 Fixtures.initProcess = (Returned, w')
    /\ holds (disk w') ["app"; "src"; "project"] Fixtures.templates
    /\ holds (disk w') ["ts"; "templates"; "pkg"] Fixtures.templates
    /\ stdout w'
       = [] ++ ["Scaffolding BigCommerce OAuth Next files to:" +:+ newline +:+ "  "
                +:+ "/project/src/app";
                "Done!"]
    /\ stderr w' = []
    /\ forall q, ~ around ["app"; "src"; "project"] q ->
                 disk w' !! q = Fixtures.packageDisk !! q.
Proof.
  apply (main_init_scaffolds 4 Fixtures.initProcess "node" "cli.js" "./src/app" []).
  - reflexivity.
  - discriminate.
  - vm_compute. lia.
  - change (holds Fixtures.packageDisk ["ts"; "templates"; "pkg"] Fixtures.templates).
    unfold Fixtures.templates. prove_holds.
  - reflexivity.
  - compute_done.
  - compute_done.
Defined.

End CliExtras.

(** ** The properties above on the fixtures *)

Section ControllerExtrasWitnesses.

Import InstallController.

Lemma handle_logs_the_failure_witness :
  console
    (handle Fixtures.successRequest
       (fresh (Fixtures.rejectingConfig (Js.mkThrown Js.OtherValue "boom")) ())).2
  = [] ++ [Js.mkThrown Js.OtherValue "boom"]
  /\ (performInstall Fixtures.successRequest
        (fresh (Fixtures.rejectingConfig (Js.mkThrown Js.OtherValue "boom")) ())).1
     = Returned
         (InstallResult.mk error None
            (Some (mapErrorToCode (Js.mkThrown Js.OtherValue "boom")))).
Proof.
  exact (proj2 (handle_logs_the_failure Fixtures.successRequest
                  (fresh (Fixtures.rejectingConfig (Js.mkThrown Js.OtherValue "boom")) ()))
           "abc123" "stores/xyz" eq_refl ltac:(discriminate) eq_refl ltac:(discriminate)).
Defined.


Lemma invalid_forwarded_proto_throws_witness :
  (handle
     (Next.mkRequest (UrlEncoded.parse "code=abc123&context=stores/xyz")
        {[ "host" := "shop.example.com"; "x-forwarded-proto" := "" ]})
     (fresh Fixtures.defaultConfig ())).1
  = Threw (Js.mkThrown Js.OtherValue "TypeError: Invalid URL")
  /\ (handle
        (Next.mkRequest (UrlEncoded.parse "code=abc123&context=stores/xyz")
           {[ "host" := "shop.example.com"; "x-forwarded-proto" := "" ]})
        (fresh Fixtures.defaultConfig ())).2
     = (performInstall
          (Next.mkRequest (UrlEncoded.parse "code=abc123&context=stores/xyz")
             {[ "host" := "shop.example.com"; "x-forwarded-proto" := "" ]})
          (fresh Fixtures.defaultConfig ())).2.
Proof.
  apply (invalid_forwarded_proto_throws
           (Next.mkRequest (UrlEncoded.parse "code=abc123&context=stores/xyz")
              {[ "host" := "shop.example.com"; "x-forwarded-proto" := "" ]})
           (fresh Fixtures.defaultConfig ()) "").
  - vm_compute. reflexivity.
  - reflexivity.
  - reflexivity.
Defined.

Lemma empty_forwarded_host_throws_witness :
  getBaseUrl
    (Next.mkRequest (UrlEncoded.parse "code=abc123&context=stores/xyz")
       {[ "host" := "shop.example.com"; "x-forwarded-host" := "" ]})
  = "http://"
  /\ (handle
        (Next.mkRequest (UrlEncoded.parse "code=abc123&context=stores/xyz")
           {[ "host" := "shop.example.com"; "x-forwarded-host" := "" ]})
        (fresh Fixtures.defaultConfig ())).1
     = Threw (Js.mkThrown Js.OtherValue "TypeError: Invalid URL").
Proof.
  apply (empty_forwarded_host_throws
           (Next.mkRequest (UrlEncoded.parse "code=abc123&context=stores/xyz")
              {[ "host" := "shop.example.com"; "x-forwarded-host" := "" ]})
           (fresh Fixtures.defaultConfig ())).
  - vm_compute. reflexivity.
  - vm_compute. reflexivity.
Defined.


End ControllerExtrasWitnesses.

Section FsExtrasWitnesses.

Import Fs.

Lemma copyDirectory_keeps_well_formed_witness :
  well_formed
    (copyDirectory 1 ["src"; "tmp"] ["file.txt"; "src"; "tmp"] Fixtures.sourceTree).2.
Proof.
  apply (copyDirectory_keeps_well_formed 1 ["src"; "tmp"] ["file.txt"; "src"; "tmp"]
           Fixtures.sourceTree).
  compute_done.
Defined.

Lemma copyDirectory_missing_source_witness :
  exists s',
    copyDirectory 1 ["templates"; "tmp"] ["dest"; "tmp"] Fixtures.sourceTree
    = (Throws ENOENT ["templates"; "tmp"], s')
    /\ (exists entries, s' !! ["dest"; "tmp"] = Some (Directory entries))
    /\ (Fixtures.sourceTree !! ["dest"; "tmp"] = None ->
        s' !! ["dest"; "tmp"] = Some (Directory []))
    /\ (forall q, ~ q `suffix_of` ["dest"; "tmp"] -> s' !! q = Fixtures.sourceTree !! q).
Proof.
  apply (copyDirectory_missing_source 0 ["templates"; "tmp"] ["dest"; "tmp"]
           Fixtures.sourceTree).
  - reflexivity.
  - reflexivity.
  - compute_done.
Defined.

Lemma copyDirectory_empty_source_witness :
  copyDirectory 1 ["project"] ["pkg"] Fixtures.packageDisk = (Ok (), Fixtures.packageDisk).
Proof.
  apply (proj1 (copyDirectory_empty_source 0 ["project"] ["pkg"] Fixtures.packageDisk
                  eq_refl)).
  vm_compute. eauto.
Defined.

Lemma copyDirectory_onto_regular_file_witness :
  copyDirectory 2 ["nested"; "src"; "tmp"] ["file.txt"; "src"; "tmp"] Fixtures.sourceTree
  = (Throws ENOTDIR ["inner.txt"; "file.txt"; "src"; "tmp"], Fixtures.sourceTree).
Proof.
  apply (copyDirectory_onto_regular_file 0 ["nested"; "src"; "tmp"]
           ["file.txt"; "src"; "tmp"] Fixtures.sourceTree "root file" "inner.txt" []).
  - compute_done.
  - reflexivity.
  - reflexivity.
  - vm_compute. eauto.
Defined.

End FsExtrasWitnesses.
